(** * Placeholder image generator: the PNG encoder of the MCP server

    A shallow embedding of the encoder of the image generator server
    (generatePNG, deflateData, crc32, adler32, hexToRgb and the argument
    validation of the request handler) and the properties of its output.

    JavaScript numbers that the encoder handles are integers and are
    modelled in Z; the 32-bit conversions that the bitwise operators of
    JavaScript perform are written out.  Buffers are lists of integers,
    written by index with stdpp's list insert (which, like a typed array,
    ignores a write out of range).  The dimensions of a request need not be
    integers: module Double embeds generatePNG once more on finite numbers,
    with the rounding of the arithmetic written out. *)

From Stdlib Require Import ZArith QArith Qround Qpower Qcanon Lia Bool Ascii.
From stdpp Require Import list strings pretty.

Local Open Scope Z_scope.

(** ** JavaScript integer primitives *)

Module JS.

(** ToInt32 and ToUint32 of an integer-valued number. *)
Definition to_int32 (z : Z) : Z := (z + 2 ^ 31) mod 2 ^ 32 - 2 ^ 31.
Definition to_uint32 (z : Z) : Z := z mod 2 ^ 32.

(** [a ^ b], [a & b], [a | b]: both operands through ToInt32, the result
    is an int32. *)
Definition bitxor (a b : Z) : Z := Z.lxor (to_int32 a) (to_int32 b).
Definition bitand (a b : Z) : Z := Z.land (to_int32 a) (to_int32 b).
Definition bitor (a b : Z) : Z := Z.lor (to_int32 a) (to_int32 b).

(** [a << n]: int32 result; [a >>> n]: the operand through ToUint32, the
    result is a uint32.  The shift count is taken modulo 32. *)
Definition shl (a n : Z) : Z := to_int32 (Z.shiftl (to_int32 a) (n mod 32)).
Definition ushr (a n : Z) : Z := Z.shiftr (to_uint32 a) (n mod 32).

(** [a % b] on integers: the remainder has the sign of the dividend. *)
Definition rem (a b : Z) : Z := Z.rem a b.

(** A number as parseInt returns it: [None] stands for NaN. *)
Definition number := option Z.

(** ToUint8, applied when a value is stored in a Buffer element; NaN and
    undefined are stored as 0. *)
Definition to_uint8 (v : number) : Z :=
  match v with
  | Some z => z mod 256
  | None => 0
  end.

End JS.

(** ** Exceptions and the error monad *)

(** [RangeError]: thrown by Node's Buffer methods on a value, offset or size
    out of range.  [OutOfFuel] is not a JavaScript exception: it marks a loop
    of the model that was given too few iterations, and the theorems below
    show that it never arises. *)
Inductive exn : Type :=
| RangeError
| OutOfFuel.

Inductive result (A : Type) : Type :=
| Ok (a : A)
| Throw (e : exn).

Arguments Ok {A} a.
Arguments Throw {A} e.

Definition bind {A B : Type} (m : result A) (k : A -> result B) : result B :=
  match m with
  | Ok a => k a
  | Throw e => Throw e
  end.

Notation "x <- m ;; k" := (bind m (fun x => k))
  (at level 100, m at next level, right associativity).

(** ** Node's Buffer *)

(** A Buffer is its list of bytes. *)
Abbreviation Buffer := (list Z).

Definition is_byte (z : Z) : Prop := 0 <= z < 256.

Module Buf.

(** buffer.constants.MAX_LENGTH.  The limit differs between Node releases
    (2^31-1, 2^32, 2^53-1); the value of the current release is taken.
    Every one of them exceeds the largest buffer that the encoder
    allocates for dimensions up to 4096. *)
Definition kMaxLength : Z := 2 ^ 53 - 1.

(** Buffer.alloc(size): zero-filled; a size that is negative or above the
    limit throws. *)
Definition alloc (size : Z) : result Buffer :=
  if (0 <=? size) && (size <=? kMaxLength)
  then Ok (replicate (Z.to_nat size) 0)
  else Throw RangeError.

(** Buffer.from(array of bytes) and Buffer.from(ascii string). *)
Definition from_array (l : list Z) : Buffer := map (fun z => z mod 256) l.

Fixpoint from_string (s : string) : Buffer :=
  match s with
  | EmptyString => []
  | String c s' => Z.of_N (Ascii.N_of_ascii c) :: from_string s'
  end.

(** buf[i] = v. *)
Definition set (buf : Buffer) (i : Z) (v : JS.number) : Buffer :=
  if 0 <=? i then <[Z.to_nat i := JS.to_uint8 v]> buf else buf.

(** buf[i]: undefined out of range. *)
Definition get (buf : Buffer) (i : Z) : JS.number :=
  if 0 <=? i then buf !! Z.to_nat i else None.

Definition len (buf : Buffer) : Z := Z.of_nat (length buf).

(** data.subarray(start, end) for 0 <= start. *)
Definition subarray (buf : Buffer) (start stop : Z) : Buffer :=
  take (Z.to_nat (stop - start)) (drop (Z.to_nat start) buf).

(** The integer writes convert nothing: they check the value against the
    range of the type and the offset against the length of the buffer, and
    throw a RangeError (ERR_OUT_OF_RANGE) otherwise; a negative value is out
    of the range of every unsigned write. *)
Definition check (value lo hi offset size : Z) (buf : Buffer) : bool :=
  (lo <=? value) && (value <=? hi) && (0 <=? offset) && (offset + size <=? len buf).

Definition writeUInt8 (buf : Buffer) (value offset : Z) : result Buffer :=
  if check value 0 0xFF offset 1 buf
  then Ok (<[Z.to_nat offset := value]> buf)
  else Throw RangeError.

Definition writeUInt16LE (buf : Buffer) (value offset : Z) : result Buffer :=
  if check value 0 0xFFFF offset 2 buf
  then Ok (<[Z.to_nat offset + 1 := Z.shiftr value 8]>
           (<[Z.to_nat offset := Z.land value 0xFF]> buf))%nat
  else Throw RangeError.

Definition writeUInt32BE (buf : Buffer) (value offset : Z) : result Buffer :=
  if check value 0 0xFFFFFFFF offset 4 buf
  then Ok (<[Z.to_nat offset := Z.shiftr value 24]>
           (<[Z.to_nat offset + 1 := Z.land (Z.shiftr value 16) 0xFF]>
            (<[Z.to_nat offset + 2 := Z.land (Z.shiftr value 8) 0xFF]>
             (<[Z.to_nat offset + 3 := Z.land value 0xFF]> buf))))%nat
  else Throw RangeError.

End Buf.

(** ** Loops *)

(** [for (let i = start; i < stop; i += step) body]: the state [s] is what
    the body updates. *)
Fixpoint for_loop {S : Type} (fuel : nat) (i stop step : Z)
    (body : Z -> S -> result S) (s : S) : result S :=
  if i <? stop then
    match fuel with
    | O => Throw OutOfFuel
    | Datatypes.S fuel' =>
        s' <- body i s ;; for_loop fuel' (i + step) stop step body s'
    end
  else Ok s.

(** ** Checksums *)

(** The table that crc32 builds on every call: entry i is i after eight
    rounds of the shift-and-conditionally-xor step. *)
Definition crcTable_round (c : Z) : Z :=
  if JS.bitand c 1 =? 0 then JS.ushr c 1 else JS.bitxor 0xEDB88320 (JS.ushr c 1).

Definition crcTable_entry (i : Z) : Z := Nat.iter 8 crcTable_round i.

Definition crcTable : list Z := map (fun i => crcTable_entry (Z.of_nat i)) (seq 0 256).

(** crcTable[k] as an operand of [^]: undefined counts as 0. *)
Definition crcTable_at (k : Z) : Z :=
  if 0 <=? k then default 0 (crcTable !! Z.to_nat k) else 0.

(** The loops of crc32 and adler32 run over data[0], data[1], ... in order:
    a left fold of the body over the bytes. *)
Definition crc32_step (crc d : Z) : Z :=
  JS.bitxor (crcTable_at (JS.bitand (JS.bitxor crc d) 0xFF)) (JS.ushr crc 8).

Definition crc32 (data : Buffer) : Z :=
  let crc := fold_left crc32_step data 0xFFFFFFFF in
  JS.ushr (JS.bitxor crc 0xFFFFFFFF) 0.

Definition MOD_ADLER : Z := 65521.

Definition adler32_step (ab : Z * Z) (d : Z) : Z * Z :=
  let a := JS.rem (fst ab + d) MOD_ADLER in
  let b := JS.rem (snd ab + a) MOD_ADLER in
  (a, b).

Definition adler32 (data : Buffer) : Z :=
  let ab := fold_left adler32_step data (1, 0) in
  JS.bitor (JS.shl (snd ab) 16) (fst ab).

(** ** Colours *)

Definition is_hex_digit (c : ascii) : bool :=
  let n := Ascii.nat_of_ascii c in
  ((48 <=? n) && (n <=? 57) || (65 <=? n) && (n <=? 70) || (97 <=? n) && (n <=? 102))%nat.

Definition hex_digit_value (c : ascii) : Z :=
  let n := Z.of_nat (Ascii.nat_of_ascii c) in
  if n <=? 57 then n - 48 else if n <=? 70 then n - 55 else n - 87.

Fixpoint all_hex (s : string) : bool :=
  match s with
  | EmptyString => true
  | String c s' => is_hex_digit c && all_hex s'
  end.

(** /^#([0-9A-Fa-f]{3}|[0-9A-Fa-f]{6})$/.test(color) *)
Definition isValidColor (color : string) : bool :=
  match color with
  | String "#" digits =>
      all_hex digits && ((String.length digits =? 3) || (String.length digits =? 6))%nat
  | _ => false
  end.

(** hex.replace('#', ''): the first occurrence only. *)
Fixpoint remove_hash (s : string) : string :=
  match s with
  | EmptyString => EmptyString
  | String c s' => if Ascii.eqb c "#" then s' else String c (remove_hash s')
  end.

Definition is_whitespace (c : ascii) : bool :=
  let n := Ascii.nat_of_ascii c in
  ((9 <=? n) && (n <=? 13) || (n =? 32))%nat.

Fixpoint skip_whitespace (s : string) : string :=
  match s with
  | String c s' => if is_whitespace c then skip_whitespace s' else s
  | EmptyString => s
  end.

(** The value of the longest prefix of hexadecimal digits, after the digits
    already read ([None] while no digit was read). *)
Fixpoint hex_prefix_value (s : string) (acc : JS.number) : JS.number :=
  match s with
  | String c s' =>
      if is_hex_digit c
      then hex_prefix_value s' (Some (16 * default 0 acc + hex_digit_value c))
      else acc
  | EmptyString => acc
  end.

(** parseInt(s, 16) on an ASCII string: leading white space, a sign, a 0x
    prefix, then the longest prefix of digits; NaN when there is none. *)
Definition parseInt16 (s : string) : JS.number :=
  let s := skip_whitespace s in
  let '(sign, s) :=
    match s with
    | String "-" s' => (-1, s')
    | String "+" s' => (1, s')
    | _ => (1, s)
    end in
  let s :=
    match s with
    | String "0" (String "x" s') => s'
    | String "0" (String "X" s') => s'
    | _ => s
    end in
  match hex_prefix_value s None with
  | Some v => Some (sign * v)
  | None => None
  end.

Record rgb : Type := { r : JS.number; g : JS.number; b : JS.number }.

Definition hexToRgb (hex : string) : rgb :=
  let hex := remove_hash hex in
  let hex :=
    match hex with
    | String h0 (String h1 (String h2 EmptyString)) =>
        String h0 (String h0 (String h1 (String h1 (String h2 (String h2 EmptyString)))))
    | _ => hex
    end in
  {| r := parseInt16 (String.substring 0 2 hex);
     g := parseInt16 (String.substring 2 2 hex);
     b := parseInt16 (String.substring 4 2 hex) |}.

(** ** The stream wrapper *)

Definition maxBlockSize : Z := 65535.

(** One iteration of the loop of deflateData: the block that starts at
    offset [i] is pushed on [blocks]. *)
Definition deflate_block (data : Buffer) (i : Z) (blocks : list Buffer)
    : result (list Buffer) :=
  let blockData := Buf.subarray data i (Z.min (i + maxBlockSize) (Buf.len data)) in
  let isLast := i + maxBlockSize >=? Buf.len data in
  let blockHeader := Buf.from_array [if isLast then 0x01 else 0x00] in
  let len := Buf.len blockData in
  let nlen := 0xFFFF - len in
  lengthBytes <- Buf.alloc 4 ;;
  lengthBytes <- Buf.writeUInt16LE lengthBytes len 0 ;;
  lengthBytes <- Buf.writeUInt16LE lengthBytes nlen 2 ;;
  Ok (blocks ++ [blockHeader; lengthBytes; blockData]).

Definition deflate_blocks (data : Buffer) : result (list Buffer) :=
  for_loop (length data) 0 (Buf.len data) maxBlockSize (deflate_block data) [].

Definition deflateData (data : Buffer) : result Buffer :=
  blocks <- deflate_blocks data ;;
  let cmf := 0x78 in
  let flg := 0x01 in
  let header := Buf.from_array [cmf; flg] in
  let blockData := concat blocks in
  let adler := adler32 data in
  adlerBytes <- Buf.alloc 4 ;;
  adlerBytes <- Buf.writeUInt32BE adlerBytes adler 0 ;;
  Ok (concat [header; blockData; adlerBytes]).

(** ** The encoder *)

(** The steps of generatePNG, each under the name of the local variable it
    computes.  Width and height are integers here; colour strings are
    ASCII. *)
Definition signature : Buffer :=
  Buf.from_array [0x89; 0x50; 0x4E; 0x47; 0x0D; 0x0A; 0x1A; 0x0A].

Definition ihdrData (width height : Z) : result Buffer :=
  d <- Buf.alloc 13 ;;
  d <- Buf.writeUInt32BE d width 0 ;;
  d <- Buf.writeUInt32BE d height 4 ;;
  d <- Buf.writeUInt8 d 8 8 ;;
  d <- Buf.writeUInt8 d 2 9 ;;
  d <- Buf.writeUInt8 d 0 10 ;;
  d <- Buf.writeUInt8 d 0 11 ;;
  Buf.writeUInt8 d 0 12.

Definition ihdr (ihdrData : Buffer) : result Buffer :=
  let ihdrCrc := crc32 (concat [Buf.from_string "IHDR"; ihdrData]) in
  z <- Buf.alloc 4 ;;
  let ihdr := concat [Buf.from_array [0x00; 0x00; 0x00; 0x0D];
                      Buf.from_string "IHDR"; ihdrData; z] in
  Buf.writeUInt32BE ihdr ihdrCrc (Buf.len ihdr - 4).

(** The first loop: every pixel of the raster receives the colour. *)
Definition pixelData (width height : Z) (c : rgb) : result Buffer :=
  p <- Buf.alloc (width * height * 3) ;;
  for_loop (length p) 0 (Buf.len p) 3
    (fun i p => Ok (Buf.set (Buf.set (Buf.set p i (r c)) (i + 1) (g c)) (i + 2) (b c)))
    p.

(** The second loop: each row is copied behind its filter byte; the state
    is the write position and the buffer. *)
Definition imageData_row (width : Z) (pixelData : Buffer) (y : Z) (st : Z * Buffer)
    : result (Z * Buffer) :=
  let st := (fst st + 1, Buf.set (snd st) (fst st) (Some 0)) in
  for_loop (Z.to_nat (width * 3)) 0 (width * 3) 1
    (fun x st =>
       Ok (fst st + 1,
           Buf.set (snd st) (fst st) (Buf.get pixelData (y * width * 3 + x))))
    st.

Definition imageData (width height : Z) (pixelData : Buffer) : result Buffer :=
  img <- Buf.alloc (height + Buf.len pixelData) ;;
  st <- for_loop (Z.to_nat height) 0 height 1 (imageData_row width pixelData) (0, img) ;;
  Ok (snd st).

Definition idat (compressedData : Buffer) : result Buffer :=
  let idatCrc := crc32 (concat [Buf.from_string "IDAT"; compressedData]) in
  z0 <- Buf.alloc 4 ;;
  z1 <- Buf.alloc 4 ;;
  let idat := concat [z0; Buf.from_string "IDAT"; compressedData; z1] in
  idat <- Buf.writeUInt32BE idat (Buf.len compressedData) 0 ;;
  Buf.writeUInt32BE idat idatCrc (Buf.len idat - 4).

Definition iend : result Buffer :=
  let iendCrc := crc32 (Buf.from_string "IEND") in
  z <- Buf.alloc 4 ;;
  let iend := concat [Buf.from_array [0x00; 0x00; 0x00; 0x00]; Buf.from_string "IEND"; z] in
  Buf.writeUInt32BE iend iendCrc (Buf.len iend - 4).

Definition generatePNG (width height : Z) (color : string) : result Buffer :=
  let c := hexToRgb color in
  ihdrData <- ihdrData width height ;;
  ihdr <- ihdr ihdrData ;;
  pixelData <- pixelData width height c ;;
  imageData <- imageData width height pixelData ;;
  compressedData <- deflateData imageData ;;
  idat <- idat compressedData ;;
  iend <- iend ;;
  Ok (concat [signature; ihdr; idat; iend]).

(** ** generatePNG on numbers

    The handler hands generatePNG the numbers of the request as they are,
    and these need not be integers.  Here the encoder is embedded once more,
    on finite numbers: a finite double is the rational it denotes, and an
    arithmetic operation of JavaScript is the exact operation followed by the
    rounding to the nearest double.  The steps that do not depend on the
    dimensions (ihdr, deflateData, idat, iend) are the ones above. *)

Module Double.

(** The exponent of the binade of q <> 0: the e with 2^e <= |q| < 2^(e+1). *)
Definition ilog2 (q : Q) : Z :=
  let n := Z.abs (Qnum q) in
  let d := Zpos (Qden q) in
  let k := Z.log2 n - Z.log2 d in
  if d * 2 ^ Z.max k 0 <=? n * 2 ^ Z.max (- k) 0 then k else k - 1.

(** The nearest integer, the even one of two that are equally near. *)
Definition round_half_even (q : Q) : Z :=
  let f := Qfloor q in
  match (q - inject_Z f ?= 1 # 2)%Q with
  | Lt => f
  | Gt => f + 1
  | Eq => if Z.even f then f else f + 1
  end.

(** The nearest double: 53 significant bits, and no bit below 2^-1074.
    Overflow to an infinity is left out: where generatePNG computes, both
    dimensions have passed the range check of writeUInt32BE, and no result
    reaches 2^1024. *)
Definition round (q : Q) : Q :=
  if Qeq_bool q 0 then 0%Q
  else
    let p := Z.max (ilog2 q - 52) (- 1074) in
    Qred (inject_Z (round_half_even (q / 2 ^ p)) * 2 ^ p)%Q.

(** [x * y] and [x + y] on numbers. *)
Definition mul (x y : Q) : Q := round (x * y).
Definition add (x y : Q) : Q := round (x + y).

(** [i < stop] for a counter i. *)
Definition lt (i : Z) (stop : Q) : bool := negb (Qle_bool stop (inject_Z i)).

(** Buffer.alloc(size): the size is checked as the number it is, and the
    buffer has the integer part of it as length. *)
Definition alloc (size : Q) : result Buffer :=
  if Qle_bool 0 size && Qle_bool size (inject_Z Buf.kMaxLength)
  then Buf.alloc (Qfloor size)
  else Throw RangeError.

(** buf.writeUInt32BE(value, offset): the value is checked as the number it
    is; the four elements then receive value, value >>> 8, ..., each
    truncated and reduced by the element store. *)
Definition writeUInt32BE (buf : Buffer) (value : Q) (offset : Z) : result Buffer :=
  if Qle_bool 0 value && Qle_bool value (inject_Z 0xFFFFFFFF)
  then Buf.writeUInt32BE buf (Qfloor value) offset
  else Throw RangeError.

(** buf[i] for a number i: undefined unless i is an integer in range. *)
Definition get (buf : Buffer) (i : Q) : JS.number :=
  if (Qden (Qred i) =? 1)%positive then Buf.get buf (Qnum (Qred i)) else None.

(** [for (let i = start; i < stop; i++) body] with a number as bound. *)
Fixpoint for_lt {S : Type} (fuel : nat) (i : Z) (stop : Q)
    (body : Z -> S -> result S) (s : S) : result S :=
  if lt i stop then
    match fuel with
    | O => Throw OutOfFuel
    | Datatypes.S fuel' => s' <- body i s ;; for_lt fuel' (i + 1) stop body s'
    end
  else Ok s.

(** The steps of generatePNG that use width and height, as above, now with
    the arithmetic on numbers: width * height * 3, height +
    pixelData.length, the bounds y < height and x < width * 3, and the index
    y * width * 3 + x. *)
Definition ihdrData (width height : Q) : result Buffer :=
  d <- Buf.alloc 13 ;;
  d <- writeUInt32BE d width 0 ;;
  d <- writeUInt32BE d height 4 ;;
  d <- Buf.writeUInt8 d 8 8 ;;
  d <- Buf.writeUInt8 d 2 9 ;;
  d <- Buf.writeUInt8 d 0 10 ;;
  d <- Buf.writeUInt8 d 0 11 ;;
  Buf.writeUInt8 d 0 12.

Definition pixelData (width height : Q) (c : rgb) : result Buffer :=
  p <- alloc (mul (mul width height) 3) ;;
  for_loop (length p) 0 (Buf.len p) 3
    (fun i p => Ok (Buf.set (Buf.set (Buf.set p i (r c)) (i + 1) (g c)) (i + 2) (b c)))
    p.

Definition imageData_row (width : Q) (pixelData : Buffer) (y : Z) (st : Z * Buffer)
    : result (Z * Buffer) :=
  let st := (fst st + 1, Buf.set (snd st) (fst st) (Some 0)) in
  for_lt (Z.to_nat (Qceiling (mul width 3))) 0 (mul width 3)
    (fun x st =>
       Ok (fst st + 1,
           Buf.set (snd st) (fst st)
             (get pixelData (add (mul (mul (inject_Z y) width) 3) (inject_Z x)))))
    st.

Definition imageData (width height : Q) (pixelData : Buffer) : result Buffer :=
  img <- alloc (add height (inject_Z (Buf.len pixelData))) ;;
  st <- for_lt (Z.to_nat (Qceiling height)) 0 height
          (imageData_row width pixelData) (0, img) ;;
  Ok (snd st).

Definition generatePNG (width height : Q) (color : string) : result Buffer :=
  let c := hexToRgb color in
  ihdrData <- ihdrData width height ;;
  ihdr <- ihdr ihdrData ;;
  pixelData <- pixelData width height c ;;
  imageData <- imageData width height pixelData ;;
  compressedData <- deflateData imageData ;;
  idat <- idat compressedData ;;
  iend <- iend ;;
  Ok (concat [signature; ihdr; idat; iend]).

End Double.

(** ** The request handler *)

(** The arguments of a request are arbitrary JSON values.  A number is NaN,
    an infinity, or finite; a finite double is represented by the rational
    it denotes, which is all that the comparisons of the validation see. *)
Inductive jsnum : Type :=
| NaN
| Infinity (negative : bool)
| Finite (q : Q).

#[warnings="-register-all"]
Inductive jsval : Type :=
| JUndefined
| JNull
| JBoolean (v : bool)
| JNumber (n : jsnum)
| JString (s : string)
| JArray (items : list jsval)
| JObject (fields : list (string * jsval)).

Inductive jstype : Type := TUndefined | TObject | TBoolean | TNumber | TString.

Definition typeof (v : jsval) : jstype :=
  match v with
  | JUndefined => TUndefined
  | JNull => TObject
  | JBoolean _ => TBoolean
  | JNumber _ => TNumber
  | JString _ => TString
  | JArray _ => TObject
  | JObject _ => TObject
  end.

Definition jstype_eqb (s t : jstype) : bool :=
  match s, t with
  | TUndefined, TUndefined | TObject, TObject | TBoolean, TBoolean
  | TNumber, TNumber | TString, TString => true
  | _, _ => false
  end.

Fixpoint lookup_field (k : string) (fields : list (string * jsval)) : jsval :=
  match fields with
  | [] => JUndefined
  | (k', v) :: rest => if String.eqb k k' then v else lookup_field k rest
  end.

(** args.k; only evaluated on what passed the object test. *)
Definition prop (args : jsval) (k : string) : jsval :=
  match args with
  | JObject fields => lookup_field k fields
  | _ => JUndefined
  end.

(** v > 0 and v <= 4096 on what passed the number test. *)
Definition gt_0 (v : jsval) : bool :=
  match v with
  | JNumber (Finite q) => negb (Qle_bool q 0)
  | JNumber (Infinity false) => true
  | _ => false
  end.

Definition le_4096 (v : jsval) : bool :=
  match v with
  | JNumber (Finite q) => Qle_bool q 4096
  | JNumber (Infinity true) => true
  | _ => false
  end.

Definition is_null (v : jsval) : bool :=
  match v with
  | JNull => true
  | _ => false
  end.

Definition isValidGenerateImageArgs (args : jsval) : bool :=
  jstype_eqb (typeof args) TObject &&
  negb (is_null args) &&
  jstype_eqb (typeof (prop args "width")) TNumber &&
  jstype_eqb (typeof (prop args "height")) TNumber &&
  jstype_eqb (typeof (prop args "color")) TString &&
  jstype_eqb (typeof (prop args "filepath")) TString &&
  gt_0 (prop args "width") &&
  gt_0 (prop args "height") &&
  le_4096 (prop args "width") &&
  le_4096 (prop args "height").

Inductive ErrorCode : Type := InvalidParams | InternalError | MethodNotFound.

(** What handleGenerateImage does with a request: it throws an McpError
    before anything is generated, or it enters the try block, where
    generatePNG(width, height, color) is called and the result is written to
    filepath (a failure in there is rethrown as InternalError). *)
Inductive handled : Type :=
| McpError (code : ErrorCode)
| Generate (width height : jsval) (color filepath : jsval).

Definition as_string (v : jsval) : string :=
  match v with
  | JString s => s
  | _ => EmptyString
  end.

Definition handleGenerateImage (args : jsval) : handled :=
  if negb (isValidGenerateImageArgs args) then McpError InvalidParams
  else
    let width := prop args "width" in
    let height := prop args "height" in
    let color := prop args "color" in
    let filepath := prop args "filepath" in
    if negb (isValidColor (as_string color)) then McpError InvalidParams
    else Generate width height color filepath.

(** ** Reference definitions

    What the specification of the encoder says, in its own terms; the
    theorems below compare them with the code above. *)

(** Adler-32: the running sums a and b modulo 65521, packed as the unsigned
    word whose high half is b and whose low half is a. *)
Definition adler32_sums (data : list Z) : Z * Z :=
  fold_left (fun ab d =>
               let a := (fst ab + d) mod 65521 in
               (a, (snd ab + a) mod 65521))
            data (1, 0).

Definition adler32_spec (data : list Z) : Z :=
  Z.lor (Z.shiftl (snd (adler32_sums data)) 16) (fst (adler32_sums data)).

(** CRC-32, bit by bit: the reflected polynomial 0xEDB88320, the
    accumulator started at all ones and inverted at the end. *)
Definition crc_poly : Z := 0xEDB88320.

Definition crc_shift (c : Z) : Z :=
  if Z.testbit c 0 then Z.lxor (Z.shiftr c 1) crc_poly else Z.shiftr c 1.

Definition crc_update (c d : Z) : Z := Nat.iter 8 crc_shift (Z.lxor c d).

Definition crc32_reference (data : list Z) : Z :=
  Z.lxor (fold_left crc_update data 0xFFFFFFFF) 0xFFFFFFFF.

(** Integers as big-endian and little-endian byte strings. *)
Definition be32 (v : Z) : list Z :=
  [v / 2 ^ 24 mod 256; v / 2 ^ 16 mod 256; v / 2 ^ 8 mod 256; v mod 256].

Definition le16 (v : Z) : list Z := [v mod 256; v / 2 ^ 8 mod 256].

Definition decode_be32 (bs : list Z) : Z :=
  fold_left (fun acc x => acc * 256 + x) bs 0.

(** make_chunk: length, tag, payload, checksum over tag and payload. *)
Definition make_chunk (tag : string) (payload : list Z) : list Z :=
  be32 (Buf.len payload) ++ Buf.from_string tag ++ payload
  ++ be32 (crc32 (Buf.from_string tag ++ payload)).

(** The payload of the header chunk. *)
Definition header_payload (width height : Z) : list Z :=
  be32 width ++ be32 height ++ [8; 2; 0; 0; 0].

(** The scanline buffer: height rows, each the framing byte 0 and then
    width times the three colour bytes. *)
Definition scanline (width : nat) (cr cg cb : Z) : list Z :=
  0 :: concat (replicate width [cr; cg; cb]).

Definition scanlines (width height : nat) (cr cg cb : Z) : list Z :=
  concat (replicate height (scanline width cr cg cb)).

(** The rows of a raster of [w] bytes per row, each behind its framing
    byte: what the copy loop of the encoder produces from any raster. *)
Definition row_of (w : nat) (pixel : list Z) (y : nat) : list Z :=
  0 :: take w (drop (y * w) pixel).

Definition rows_upto (w : nat) (pixel : list Z) (m : nat) : list Z :=
  concat (map (row_of w pixel) (seq 0 m)).

(** The partition of the input: consecutive chunks of 65535 bytes, the last
    one shorter when the length is not a multiple. *)
Definition block_size : nat := Z.to_nat 65535.

Definition block_count (n : nat) : nat := Z.to_nat ((Z.of_nat n + 65534) / 65535).

Definition chunk_at (data : list Z) (k : nat) : list Z :=
  take block_size (drop (k * block_size) data).

Definition split_blocks (data : list Z) : list (list Z) :=
  map (chunk_at data) (seq 0 (block_count (length data))).

(** A stored block, and a sequence of stored blocks of which the last one
    alone is marked final. *)
Definition stored_block (final : bool) (chunk : list Z) : list Z :=
  (if final then 1 else 0) :: le16 (Buf.len chunk)
  ++ le16 (0xFFFF - Buf.len chunk) ++ chunk.

Fixpoint stored_blocks (chunks : list (list Z)) : list Z :=
  match chunks with
  | [] => []
  | [c] => stored_block true c
  | c :: cs => stored_block false c ++ stored_blocks cs
  end.

(** The stream: header, blocks, trailer. *)
Definition stream (chunks : list (list Z)) (data : list Z) : list Z :=
  [0x78; 0x01] ++ stored_blocks chunks ++ be32 (adler32_spec data).

(** The block that the loop of deflateData emits for chunk k of n. *)
Definition emitted (data : list Z) (n k : nat) : list Z :=
  stored_block (Nat.eqb (Datatypes.S k) n) (chunk_at data k).

Definition hex_digits : list ascii :=
  String.list_ascii_of_string "0123456789ABCDEFabcdef".

(** A dimension that the validation of the handler lets through: a finite
    number above 0 and at most 4096. *)
Definition accepted_dimension (v : jsval) : Prop :=
  exists q, v = JNumber (Finite q) /\ (0 < q)%Q /\ (q <= 4096)%Q.

(** The dimensions that the specification calls valid. *)
Definition valid_dimension (n : Z) : Prop := 1 <= n <= 4096.

(** A request that has everything the handler asks for before it
    generates: an object with two accepted dimensions, a colour string that
    isValidColor accepts, and a string as filepath. *)
Definition accepted_request (args : jsval) : Prop :=
  (exists fields, args = JObject fields) /\
  accepted_dimension (prop args "width") /\
  accepted_dimension (prop args "height") /\
  (exists color, prop args "color" = JString color /\ isValidColor color = true) /\
  (exists filepath, prop args "filepath" = JString filepath).

(** ** The tool: dispatch, advertised schema, and the try block *)

(** The handler of CallToolRequest: one tool, every other name is a
    MethodNotFound error. *)
Definition callTool (name : string) (args : jsval) : handled :=
  if String.eqb name "generate_test_image"
  then handleGenerateImage args
  else McpError MethodNotFound.

(** The inputSchema that the server advertises for the tool: an object
    whose required properties are width and height, numbers with minimum 1
    and maximum 4096, color, a string matching the pattern (the regular
    expression of isValidColor), and filepath, a string. *)
Definition schema_number (minimum maximum : Q) (v : jsval) : Prop :=
  exists q, v = JNumber (Finite q) /\ (minimum <= q)%Q /\ (q <= maximum)%Q.

Definition inputSchema (args : jsval) : Prop :=
  (exists fields, args = JObject fields) /\
  schema_number 1 4096 (prop args "width") /\
  schema_number 1 4096 (prop args "height") /\
  (exists color, prop args "color" = JString color /\ isValidColor color = true) /\
  (exists filepath, prop args "filepath" = JString filepath).

(** The file system calls of the try block, in the order they are made. *)
Inductive fs_call : Type :=
| MkdirSync (dir : string)
| WriteFileSync (path : string) (data : list Z).

(** What the handler hands back: the text of the content, or the code of
    the McpError it throws. *)
Inductive response : Type :=
| Content (text : string)
| Failure (code : ErrorCode).

Section TryBlock.

(** path.dirname, and whether writeFileSync throws, belong to the host. *)
Variable dirname : string -> string.
Variable write_throws : bool.

(** The try block of handleGenerateImage for integer dimensions: the calls
    made and the response.  An error of mkdirSync is caught and ignored, so
    the block does not depend on it; any other error is rethrown as
    InternalError. *)
Definition tryBlock (width height : Z) (color filepath : string)
    : list fs_call * response :=
  match generatePNG width height color with
  | Throw _ => ([], Failure InternalError)
  | Ok pngBuffer =>
      let dir := dirname filepath in
      let calls := [MkdirSync dir; WriteFileSync filepath pngBuffer] in
      if write_throws then (calls, Failure InternalError)
      else
        (calls,
         Content ("Successfully generated and saved test image: "
                  +:+ pretty width +:+ "x" +:+ pretty height
                  +:+ " pixels with color " +:+ color +:+ " to " +:+ filepath))
  end.

End TryBlock.

(** ** A reader of stored-block streams

    The inverse direction, for the round trip: a reader of the stream format
    restricted to stored blocks.  It checks the two header bytes, reads
    blocks up to the one marked final, checking in each that the second
    length field is the complement of the first, and compares the trailer
    with the Adler-32 of what it read.  [fuel] bounds the number of
    blocks. *)
Fixpoint read_stored_blocks (fuel : nat) (s : list Z) : option (list Z * list Z) :=
  match fuel with
  | O => None
  | Datatypes.S fuel' =>
      match s with
      | flag :: l0 :: l1 :: n0 :: n1 :: rest =>
          let len := l0 + 256 * l1 in
          if ((flag =? 0) || (flag =? 1))
             && (n0 + 256 * n1 =? 0xFFFF - len) && (len <=? Buf.len rest)
          then
            let chunk := take (Z.to_nat len) rest in
            let rest' := drop (Z.to_nat len) rest in
            if flag =? 1 then Some (chunk, rest')
            else
              match read_stored_blocks fuel' rest' with
              | Some (data, tail) => Some (chunk ++ data, tail)
              | None => None
              end
          else None
      | _ => None
      end
  end.

Definition inflate_stored (s : list Z) : option (list Z) :=
  match s with
  | 0x78 :: 0x01 :: body =>
      match read_stored_blocks (length body) body with
      | Some (data, [a0; a1; a2; a3]) =>
          if decode_be32 [a0; a1; a2; a3] =? adler32_spec data then Some data else None
      | _ => None
      end
  | _ => None
  end.

(** The values of the CRC accumulator: unsigned 32-bit words. *)
Definition word32 (x : Z) : Prop := 0 <= x < 2 ^ 32.

(** * Properties *)

(** ** The 32-bit conversions *)

Section Conversions.

Lemma to_uint32_range z : 0 <= JS.to_uint32 z < 2 ^ 32.
Proof. unfold JS.to_uint32. apply Z.mod_pos_bound. lia. Qed.

Lemma to_int32_range z : - 2 ^ 31 <= JS.to_int32 z < 2 ^ 31.
Proof.
  unfold JS.to_int32.
  pose proof (Z.mod_pos_bound (z + 2 ^ 31) (2 ^ 32)). lia.
Qed.

Lemma to_uint32_to_int32 z : JS.to_uint32 (JS.to_int32 z) = JS.to_uint32 z.
Proof.
  unfold JS.to_uint32, JS.to_int32.
  rewrite (Z.div_mod (z + 2 ^ 31) (2 ^ 32)) at 1 by lia.
  replace (z mod 2 ^ 32) with ((z + 2 ^ 31 - 2 ^ 31) mod 2 ^ 32) by (f_equal; lia).
  rewrite (Z.div_mod (z + 2 ^ 31) (2 ^ 32)) at 3 by lia.
  set (q := (z + 2 ^ 31) / 2 ^ 32). set (m := (z + 2 ^ 31) mod 2 ^ 32).
  replace ((2 ^ 32 * q + m) mod 2 ^ 32 - 2 ^ 31) with (m mod 2 ^ 32 - 2 ^ 31).
  2:{ f_equal. rewrite Z.add_comm, Z.mul_comm. now rewrite Z.mod_add by lia. }
  replace (2 ^ 32 * q + m - 2 ^ 31) with (m - 2 ^ 31 + q * 2 ^ 32) by lia.
  rewrite Z.mod_add by lia.
  unfold m. now rewrite Z.mod_mod by lia.
Qed.

Lemma to_uint32_small z : 0 <= z < 2 ^ 32 -> JS.to_uint32 z = z.
Proof. intros. unfold JS.to_uint32. now apply Z.mod_small. Qed.

Lemma to_int32_small z : - 2 ^ 31 <= z < 2 ^ 31 -> JS.to_int32 z = z.
Proof. intros. unfold JS.to_int32. rewrite Z.mod_small; lia. Qed.

(** An unsigned word read back as int32: itself below 2^31, and 2^32 less
    from there on. *)
Lemma to_int32_of_uint32 z :
  0 <= z < 2 ^ 32 ->
  JS.to_int32 z = if z <? 2 ^ 31 then z else z - 2 ^ 32.
Proof.
  intros Hz. unfold JS.to_int32. destruct (Z.ltb_spec z (2 ^ 31)).
  - rewrite Z.mod_small; lia.
  - replace (z + 2 ^ 31) with (z - 2 ^ 31 + 1 * 2 ^ 32) by lia.
    rewrite Z.mod_add by lia. rewrite Z.mod_small; lia.
Qed.

Lemma to_uint32_land z : JS.to_uint32 z = Z.land z (Z.ones 32).
Proof. unfold JS.to_uint32. now rewrite Z.land_ones by lia. Qed.

Lemma to_uint32_lxor x y :
  JS.to_uint32 (Z.lxor x y) = Z.lxor (JS.to_uint32 x) (JS.to_uint32 y).
Proof.
  rewrite !to_uint32_land. apply Z.bits_inj'. intros n Hn.
  rewrite Z.lxor_spec, !Z.land_spec, Z.lxor_spec.
  destruct (Z.testbit x n), (Z.testbit y n), (Z.testbit (Z.ones 32) n); reflexivity.
Qed.

Lemma to_uint32_bitxor x y :
  JS.to_uint32 (JS.bitxor x y) = Z.lxor (JS.to_uint32 x) (JS.to_uint32 y).
Proof. unfold JS.bitxor. now rewrite to_uint32_lxor, !to_uint32_to_int32. Qed.

(** The low bits of a number survive both conversions. *)
Lemma to_uint32_mod_low z k :
  0 <= k <= 32 -> JS.to_uint32 z mod 2 ^ k = z mod 2 ^ k.
Proof.
  intros Hk. unfold JS.to_uint32.
  replace (2 ^ 32) with (2 ^ k * 2 ^ (32 - k)).
  - rewrite Z.rem_mul_r by lia.
    rewrite (Z.mul_comm (2 ^ k)), Z.mod_add by lia. apply Z.mod_mod. lia.
  - rewrite <- Z.pow_add_r by lia. f_equal. lia.
Qed.

Lemma to_int32_mod_low z k :
  0 <= k <= 32 -> JS.to_int32 z mod 2 ^ k = z mod 2 ^ k.
Proof.
  intros Hk. rewrite <- (to_uint32_mod_low (JS.to_int32 z)) by lia.
  rewrite to_uint32_to_int32. now apply to_uint32_mod_low.
Qed.

Lemma land_low z k : 0 <= k -> Z.land z (2 ^ k - 1) = z mod 2 ^ k.
Proof.
  intros. replace (2 ^ k - 1) with (Z.ones k).
  - now apply Z.land_ones.
  - rewrite Z.ones_equiv. lia.
Qed.

End Conversions.

(** ** CRC-32: the table-driven code against the bitwise reference *)

Section Crc.

(** One bit of the reference is linear over exclusive or. *)
Lemma crc_shift_lxor x y :
  crc_shift (Z.lxor x y) = Z.lxor (crc_shift x) (crc_shift y).
Proof.
  unfold crc_shift. rewrite Z.lxor_spec, Z.shiftr_lxor.
  set (p := crc_poly). set (u := Z.shiftr x 1). set (v := Z.shiftr y 1).
  destruct (Z.testbit x 0), (Z.testbit y 0); simpl;
    apply Z.bits_inj'; intros n _; rewrite ?Z.lxor_spec;
    destruct (Z.testbit u n), (Z.testbit v n), (Z.testbit p n); reflexivity.
Qed.

Lemma crc_iter_lxor k x y :
  Nat.iter k crc_shift (Z.lxor x y)
  = Z.lxor (Nat.iter k crc_shift x) (Nat.iter k crc_shift y).
Proof.
  induction k as [|k IH]; simpl; [reflexivity|].
  now rewrite IH, crc_shift_lxor.
Qed.

(** A word whose low bits are clear is only shifted. *)
Lemma crc_iter_high k y :
  (k <= 8)%nat ->
  Nat.iter k crc_shift (Z.shiftl y 8) = Z.shiftl y (8 - Z.of_nat k).
Proof.
  induction k as [|k IH]; intros Hk.
  - simpl. f_equal.
  - rewrite Nat.iter_succ, IH by lia. unfold crc_shift.
    rewrite Z.shiftl_spec_low by lia.
    rewrite Z.shiftr_shiftl_l by lia.
    f_equal. lia.
Qed.

Lemma split_low_high x :
  x = Z.lxor (x mod 2 ^ 8) (Z.shiftl (Z.shiftr x 8) 8).
Proof.
  apply Z.bits_inj'. intros n Hn. rewrite Z.lxor_spec.
  destruct (Z.lt_ge_cases n 8).
  - rewrite Z.mod_pow2_bits_low, Z.shiftl_spec_low by lia.
    now rewrite xorb_false_r.
  - rewrite Z.mod_pow2_bits_high, Z.shiftl_spec, Z.shiftr_spec by lia.
    simpl. f_equal. lia.
Qed.

(** The table lookup: eight bits at once. *)
Lemma crc_iter_byte x :
  Nat.iter 8 crc_shift x
  = Z.lxor (Nat.iter 8 crc_shift (x mod 2 ^ 8)) (Z.shiftr x 8).
Proof.
  rewrite (split_low_high x) at 1.
  rewrite crc_iter_lxor, crc_iter_high by lia.
  now rewrite Z.shiftl_0_r.
Qed.

(** A round of the table construction is a bit of the reference, on the
    unsigned reading of the int32 that the code holds. *)
Lemma crcTable_round_spec c :
  JS.to_uint32 (crcTable_round c) = crc_shift (JS.to_uint32 c).
Proof.
  unfold crcTable_round, crc_shift, JS.ushr, JS.bitand.
  change (1 mod 32) with 1.
  assert (Hbit : Z.land (JS.to_int32 c) (JS.to_int32 1)
                 = if Z.testbit (JS.to_uint32 c) 0 then 1 else 0).
  { change (JS.to_int32 1) with (2 ^ 1 - 1). rewrite land_low by lia.
    rewrite to_int32_mod_low, <- (to_uint32_mod_low c) by lia.
    change (2 ^ 1) with 2. rewrite <- Z.bit0_mod.
    destruct (Z.testbit (JS.to_uint32 c) 0); reflexivity. }
  rewrite Hbit.
  assert (Hs : 0 <= Z.shiftr (JS.to_uint32 c) 1 < 2 ^ 32).
  { pose proof (to_uint32_range c). rewrite Z.shiftr_div_pow2 by lia.
    split; [apply Z.div_pos; lia|]. apply Z.div_lt_upper_bound; lia. }
  destruct (Z.testbit (JS.to_uint32 c) 0); simpl.
  - rewrite to_uint32_bitxor, Z.lxor_comm. f_equal.
    now apply to_uint32_small.
  - now apply to_uint32_small.
Qed.

Lemma crcTable_iter_spec k c :
  JS.to_uint32 (Nat.iter k crcTable_round c)
  = Nat.iter k crc_shift (JS.to_uint32 c).
Proof.
  induction k as [|k IH]; [reflexivity|].
  now rewrite !Nat.iter_succ, crcTable_round_spec, IH.
Qed.

Lemma crcTable_at_entry i :
  0 <= i < 256 -> crcTable_at i = crcTable_entry i.
Proof.
  intros Hi. unfold crcTable_at, crcTable.
  destruct (Z.leb_spec 0 i); [|lia].
  rewrite list_lookup_fmap, lookup_seq_lt by lia.
  simpl. f_equal. lia.
Qed.

(** One byte: the step of the code and the update of the reference agree
    on the unsigned reading of the accumulator. *)
Lemma crc32_step_spec crc d :
  is_byte d ->
  JS.to_uint32 (crc32_step crc d) = crc_update (JS.to_uint32 crc) d.
Proof.
  intros Hd. unfold crc32_step, crc_update.
  set (x := Z.lxor (JS.to_uint32 crc) d).
  assert (Hidx : JS.bitand (JS.bitxor crc d) 0xFF = x mod 2 ^ 8).
  { unfold JS.bitand. change (JS.to_int32 255) with (2 ^ 8 - 1).
    rewrite land_low, to_int32_mod_low by lia.
    rewrite <- (to_uint32_mod_low (JS.bitxor crc d)) by lia.
    rewrite to_uint32_bitxor. unfold x. do 3 f_equal.
    apply to_uint32_small. unfold is_byte in Hd. lia. }
  rewrite Hidx.
  assert (Hx : 0 <= x mod 2 ^ 8 < 256) by (apply Z.mod_pos_bound; lia).
  rewrite crcTable_at_entry by exact Hx.
  rewrite to_uint32_bitxor. unfold crcTable_entry.
  rewrite crcTable_iter_spec, (to_uint32_small (x mod 2 ^ 8)) by lia.
  rewrite (crc_iter_byte x). f_equal.
  unfold JS.ushr. change (8 mod 32) with 8.
  rewrite to_uint32_small.
  2:{ pose proof (to_uint32_range (JS.to_uint32 crc)).
      pose proof (to_uint32_range crc).
      rewrite Z.shiftr_div_pow2 by lia.
      split; [apply Z.div_pos; lia|]. apply Z.div_lt_upper_bound; lia. }
  unfold x. rewrite Z.shiftr_lxor.
  replace (Z.shiftr d 8) with 0; [now rewrite Z.lxor_0_r|].
  rewrite Z.shiftr_div_pow2 by lia. symmetry. apply Z.div_small.
  unfold is_byte in Hd. lia.
Qed.

Lemma crc32_fold_spec data crc :
  Forall is_byte data ->
  JS.to_uint32 (fold_left crc32_step data crc)
  = fold_left crc_update data (JS.to_uint32 crc).
Proof.
  intros H. revert crc. induction H as [|d data Hd _ IH]; intros crc.
  - reflexivity.
  - simpl. now rewrite IH, crc32_step_spec.
Qed.

Lemma crc32_matches_reference data :
  Forall is_byte data -> crc32 data = crc32_reference data.
Proof.
  intros H. unfold crc32, crc32_reference, JS.ushr.
  change (0 mod 32) with 0. rewrite Z.shiftr_0_r.
  rewrite to_uint32_bitxor, crc32_fold_spec by exact H.
  reflexivity.
Qed.

Lemma crc32_range data : 0 <= crc32 data < 2 ^ 32.
Proof.
  unfold crc32, JS.ushr. change (0 mod 32) with 0.
  rewrite Z.shiftr_0_r. apply to_uint32_range.
Qed.

End Crc.

(** ** Adler-32: the sums, and the sign of the packed word *)

Section Adler.

Lemma adler32_sums_range data :
  Forall is_byte data ->
  0 <= fst (adler32_sums data) < 65521 /\ 0 <= snd (adler32_sums data) < 65521.
Proof.
  intros _. unfold adler32_sums.
  assert (G : forall ab : Z * Z,
             0 <= fst ab < 65521 /\ 0 <= snd ab < 65521 ->
             let s := fold_left (fun ab d =>
                        let a := (fst ab + d) mod 65521 in
                        (a, (snd ab + a) mod 65521)) data ab in
             0 <= fst s < 65521 /\ 0 <= snd s < 65521).
  { induction data as [|d data IH]; intros ab Hab; [exact Hab|].
    simpl. apply IH. simpl. split; apply Z.mod_pos_bound; lia. }
  apply G. simpl. lia.
Qed.

(** On bytes the remainder of the code is the modulus of the reference. *)
Lemma adler32_fold_spec data ab :
  Forall is_byte data ->
  0 <= fst ab -> 0 <= snd ab ->
  fold_left adler32_step data ab
  = fold_left (fun ab d =>
                 let a := (fst ab + d) mod 65521 in
                 (a, (snd ab + a) mod 65521)) data ab.
Proof.
  intros H. revert ab. induction H as [|d data Hd _ IH]; intros ab Ha Hb.
  - reflexivity.
  - simpl. unfold is_byte in Hd.
    assert (Ea : JS.rem (fst ab + d) MOD_ADLER = (fst ab + d) mod 65521).
    { unfold JS.rem, MOD_ADLER. apply Z.rem_mod_nonneg; lia. }
    assert (Ha' : 0 <= (fst ab + d) mod 65521) by (apply Z.mod_pos_bound; lia).
    unfold adler32_step at 2. simpl. rewrite Ea.
    assert (Eb : JS.rem (snd ab + (fst ab + d) mod 65521) MOD_ADLER
                 = (snd ab + (fst ab + d) mod 65521) mod 65521).
    { unfold JS.rem, MOD_ADLER. apply Z.rem_mod_nonneg; lia. }
    rewrite Eb. apply IH; simpl; [exact Ha'|]. apply Z.mod_pos_bound. lia.
Qed.

Lemma lor_high_low m a :
  m mod 2 ^ 16 = 0 -> 0 <= a < 2 ^ 16 -> Z.lor m a = m + a.
Proof.
  intros Hm Ha. rewrite <- Z.add_lor_land.
  replace (Z.land m a) with 0; [lia|].
  symmetry. apply Z.bits_inj'. intros n Hn.
  rewrite Z.land_spec, Z.bits_0.
  destruct (Z.lt_ge_cases n 16).
  - rewrite <- (Z.mod_pow2_bits_low m 16 n) by lia. now rewrite Hm, Z.bits_0.
  - rewrite (Z.bits_above_log2 a n), andb_false_r; [reflexivity|lia|].
    destruct (Z.eq_dec a 0) as [->|]; [simpl; lia|].
    apply Z.lt_le_trans with 16; [|lia]. apply Z.log2_lt_pow2; lia.
Qed.

Lemma adler32_spec_sum data :
  Forall is_byte data ->
  adler32_spec data
  = snd (adler32_sums data) * 2 ^ 16 + fst (adler32_sums data).
Proof.
  intros H. unfold adler32_spec.
  destruct (adler32_sums_range data H) as [Ha Hb].
  rewrite Z.shiftl_mul_pow2 by lia.
  apply lor_high_low; [|lia]. now apply Z.mod_mul.
Qed.

Lemma adler32_spec_range data :
  Forall is_byte data -> 0 <= adler32_spec data < 2 ^ 32.
Proof.
  intros H. rewrite adler32_spec_sum by exact H.
  destruct (adler32_sums_range data H). lia.
Qed.

(** What the code returns is the reference word read as an int32. *)
Lemma adler32_signed data :
  Forall is_byte data -> adler32 data = JS.to_int32 (adler32_spec data).
Proof.
  intros H. unfold adler32.
  rewrite (adler32_fold_spec data (1, 0)) by (simpl; auto; lia).
  change (fold_left _ data (1, 0)) with (adler32_sums data).
  rewrite adler32_spec_sum by exact H.
  destruct (adler32_sums_range data H) as [Ha Hb].
  set (a := fst (adler32_sums data)) in *.
  set (b := snd (adler32_sums data)) in *.
  unfold JS.bitor, JS.shl. change (16 mod 32) with 16.
  rewrite (to_int32_small b), (to_int32_small a) by lia.
  rewrite Z.shiftl_mul_pow2 by lia.
  rewrite (to_int32_small (JS.to_int32 _)) by apply to_int32_range.
  rewrite (to_int32_of_uint32 (b * 2 ^ 16)) by lia.
  rewrite (to_int32_of_uint32 (b * 2 ^ 16 + a)) by lia.
  destruct (Z.ltb_spec (b * 2 ^ 16) (2 ^ 31)) as [Hlt|Hge].
  - rewrite lor_high_low by (try apply Z.mod_mul; lia).
    destruct (Z.ltb_spec (b * 2 ^ 16 + a) (2 ^ 31)); lia.
  - rewrite lor_high_low; [|
      replace (b * 2 ^ 16 - 2 ^ 32) with ((b - 2 ^ 16) * 2 ^ 16) by lia;
      apply Z.mod_mul; lia | lia].
    destruct (Z.ltb_spec (b * 2 ^ 16 + a) (2 ^ 31)); lia.
Qed.

Lemma adler32_nonneg data :
  Forall is_byte data -> 0 <= adler32 data -> adler32 data = adler32_spec data.
Proof.
  intros H. rewrite adler32_signed by exact H.
  pose proof (adler32_spec_range data H) as Hr.
  rewrite to_int32_of_uint32 by exact Hr.
  destruct (Z.ltb_spec (adler32_spec data) (2 ^ 31)); lia.
Qed.

Lemma adler32_negative data :
  Forall is_byte data ->
  2 ^ 15 <= snd (adler32_sums data) -> adler32 data < 0.
Proof.
  intros H Hb. rewrite adler32_signed by exact H.
  pose proof (adler32_spec_range data H) as Hr.
  rewrite to_int32_of_uint32 by exact Hr.
  rewrite adler32_spec_sum in * by exact H.
  destruct (adler32_sums_range data H).
  destruct (Z.ltb_spec (snd (adler32_sums data) * 2 ^ 16 + fst (adler32_sums data))
              (2 ^ 31)); lia.
Qed.

End Adler.

(** ** Buffers and loops *)

Section Buffers.

Lemma Ok_inj {A} (x y : A) : Ok x = Ok y -> x = y.
Proof. intros H. now inversion H. Qed.


Lemma alloc_ok n :
  0 <= n <= Buf.kMaxLength -> Buf.alloc n = Ok (replicate (Z.to_nat n) 0).
Proof.
  intros [H0 H1]. unfold Buf.alloc.
  apply Z.leb_le in H0, H1. now rewrite H0, H1.
Qed.

Lemma len_app (l k : list Z) : Buf.len (l ++ k) = Buf.len l + Buf.len k.
Proof. unfold Buf.len. rewrite length_app. lia. Qed.

Lemma len_nonneg (l : list Z) : 0 <= Buf.len l.
Proof. unfold Buf.len. lia. Qed.

Lemma check_ok value hi size pre post :
  0 <= value <= hi -> 0 <= size <= Buf.len post ->
  Buf.check value 0 hi (Buf.len pre) size (pre ++ post) = true.
Proof.
  intros Hv Hs. unfold Buf.check. rewrite len_app.
  pose proof (len_nonneg pre).
  repeat (apply andb_true_intro; split); apply Z.leb_le; lia.
Qed.

Lemma insert_after (pre : list Z) k x l :
  <[(Z.to_nat (Buf.len pre) + k)%nat := x]> (pre ++ l) = pre ++ <[k := x]> l.
Proof.
  unfold Buf.len. rewrite Nat2Z.id, insert_app_r_alt by lia.
  do 2 f_equal. lia.
Qed.

Lemma insert_at (pre : list Z) x l :
  <[Z.to_nat (Buf.len pre) := x]> (pre ++ l) = pre ++ <[0%nat := x]> l.
Proof.
  rewrite <- insert_after. f_equal. lia.
Qed.

Lemma writeUInt8_app pre x post v :
  0 <= v <= 255 ->
  Buf.writeUInt8 (pre ++ [x] ++ post) v (Buf.len pre) = Ok (pre ++ [v] ++ post).
Proof.
  intros Hv. unfold Buf.writeUInt8.
  rewrite check_ok by (unfold Buf.len; simpl; lia).
  now rewrite insert_at.
Qed.

Lemma writeUInt16LE_app pre x0 x1 post v :
  0 <= v <= 0xFFFF ->
  Buf.writeUInt16LE (pre ++ [x0; x1] ++ post) v (Buf.len pre)
  = Ok (pre ++ le16 v ++ post).
Proof.
  intros Hv. unfold Buf.writeUInt16LE.
  rewrite check_ok by (unfold Buf.len; simpl; lia).
  rewrite insert_at, insert_after. simpl. unfold le16.
  change 255 with (2 ^ 8 - 1). rewrite land_low by lia.
  rewrite Z.shiftr_div_pow2 by lia.
  rewrite (Z.mod_small (v / 2 ^ 8)); [reflexivity|].
  split; [apply Z.div_pos; lia|apply Z.div_lt_upper_bound; lia].
Qed.

Lemma writeUInt32BE_app pre x0 x1 x2 x3 post v :
  0 <= v <= 0xFFFFFFFF ->
  Buf.writeUInt32BE (pre ++ [x0; x1; x2; x3] ++ post) v (Buf.len pre)
  = Ok (pre ++ be32 v ++ post).
Proof.
  intros Hv. unfold Buf.writeUInt32BE.
  rewrite check_ok by (unfold Buf.len; simpl; lia).
  rewrite !insert_after, insert_at. simpl. unfold be32.
  change 255 with (2 ^ 8 - 1). rewrite !land_low by lia.
  rewrite !Z.shiftr_div_pow2 by lia.
  rewrite (Z.mod_small (v / 2 ^ 24)); [reflexivity|].
  split; [apply Z.div_pos; lia|apply Z.div_lt_upper_bound; lia].
Qed.

Lemma writeUInt32BE_throws buf v offset :
  v < 0 -> Buf.writeUInt32BE buf v offset = Throw RangeError.
Proof.
  intros Hv. unfold Buf.writeUInt32BE, Buf.check.
  apply Z.leb_gt in Hv. now rewrite Hv.
Qed.

Lemma decode_be32_be32 v : 0 <= v < 2 ^ 32 -> decode_be32 (be32 v) = v.
Proof.
  intros Hv. unfold decode_be32, be32. simpl.
  rewrite (Z.mod_small (v / 2 ^ 24)).
  2:{ split; [apply Z.div_pos; lia|apply Z.div_lt_upper_bound; lia]. }
  pose proof (Z.div_mod v 256). pose proof (Z.div_mod (v / 2 ^ 8) 256).
  pose proof (Z.div_mod (v / 2 ^ 16) 256).
  replace (v / 2 ^ 16) with (v / 2 ^ 8 / 256) in *
    by (rewrite Z.div_div by lia; reflexivity).
  replace (v / 2 ^ 24) with (v / 2 ^ 8 / 256 / 256)
    by (rewrite !Z.div_div by lia; reflexivity).
  change (2 ^ 8) with 256 in *. lia.
Qed.

Lemma be32_length v : length (be32 v) = 4%nat.
Proof. reflexivity. Qed.

Lemma be32_bytes v : Forall is_byte (be32 v).
Proof.
  unfold be32. repeat constructor; apply Z.mod_pos_bound; lia.
Qed.

Lemma from_string_bytes s : Forall is_byte (Buf.from_string s).
Proof.
  induction s as [|c s IH]; simpl; constructor; [|exact IH].
  unfold is_byte. pose proof (Ascii.N_ascii_bounded c). lia.
Qed.

End Buffers.

Section Loops.

Context {S : Type}.
Variable Inv : Z -> S -> Prop.
Variables (stop step : Z) (body : Z -> S -> result S).
Hypothesis body_ok :
  forall i s, Inv i s -> i < stop -> exists s', body i s = Ok s' /\ Inv (i + step) s'.

(** The rule of the loop: with fuel for every iteration it returns, in a
    state that satisfies the invariant at an index past the bound. *)
Lemma for_loop_rule fuel i s :
  Inv i s ->
  stop - i <= Z.of_nat fuel * step ->
  exists j s', for_loop fuel i stop step body s = Ok s' /\ Inv j s' /\ stop <= j.
Proof.
  revert i s. induction fuel as [|fuel IH]; intros i s Hinv Hfuel.
  - exists i, s. simpl. destruct (Z.ltb_spec i stop); [lia|]. auto.
  - simpl. destruct (Z.ltb_spec i stop) as [Hlt|Hge].
    + destruct (body_ok i s Hinv Hlt) as (s' & -> & Hinv'). simpl.
      apply IH; [exact Hinv'|]. lia.
    + exists i, s. auto.
Qed.

End Loops.

(** ** The scanline buffer *)

Section Scanlines.

Lemma set_after (pre l : list Z) k v :
  0 <= k -> Buf.set (pre ++ l) (Buf.len pre + k) v = pre ++ Buf.set l k v.
Proof.
  intros Hk. unfold Buf.set. pose proof (len_nonneg pre) as H.
  destruct (Z.leb_spec 0 (Buf.len pre + k)); [|lia].
  destruct (Z.leb_spec 0 k); [|lia].
  unfold Buf.len.
  replace (Z.to_nat (Z.of_nat (length pre) + k))
    with (length pre + Z.to_nat k)%nat by lia.
  rewrite insert_app_r_alt by lia.
  do 2 f_equal. lia.
Qed.

Lemma set_at (pre : list Z) x post v :
  Buf.set (pre ++ x :: post) (Buf.len pre) v = pre ++ JS.to_uint8 v :: post.
Proof.
  rewrite <- (Z.add_0_r (Buf.len pre)), set_after by lia. reflexivity.
Qed.

Lemma set_three (pre : list Z) x0 x1 x2 post v0 v1 v2 i :
  i = Buf.len pre ->
  Buf.set (Buf.set (Buf.set (pre ++ x0 :: x1 :: x2 :: post) i v0) (i + 1) v1) (i + 2) v2
  = pre ++ JS.to_uint8 v0 :: JS.to_uint8 v1 :: JS.to_uint8 v2 :: post.
Proof.
  intros ->. rewrite <- (Z.add_0_r (Buf.len pre)) at 1.
  rewrite !set_after by lia. reflexivity.
Qed.

Lemma concat_replicate_length {A} n (l : list A) :
  length (concat (replicate n l)) = (n * length l)%nat.
Proof.
  induction n as [|n IH]; simpl; [reflexivity|].
  rewrite length_app, IH. lia.
Qed.

Lemma concat_replicate_end {A} n (l : list A) :
  concat (replicate n l) ++ l = concat (replicate (S n) l).
Proof.
  rewrite replicate_S_end, concat_app. simpl. now rewrite app_nil_r.
Qed.

Variables (width height : Z) (c : rgb).

Let cr := JS.to_uint8 (r c).
Let cg := JS.to_uint8 (g c).
Let cb := JS.to_uint8 (b c).

(** The first loop fills the raster with the colour. *)
Lemma pixelData_spec :
  0 <= width * height -> width * height * 3 <= Buf.kMaxLength ->
  pixelData width height c
  = Ok (concat (replicate (Z.to_nat (width * height)) [cr; cg; cb])).
Proof.
  intros Hn Hmax. unfold pixelData.
  rewrite alloc_ok by lia. simpl.
  set (K := Z.to_nat (width * height)).
  replace (Z.to_nat (width * height * 3)) with (3 * K)%nat by lia.
  set (body := fun (i : Z) (p : Buffer) =>
                 Ok (Buf.set (Buf.set (Buf.set p i (r c)) (i + 1) (g c)) (i + 2) (b c))).
  set (Inv := fun (j : Z) (p : Buffer) =>
                exists m : nat, j = 3 * Z.of_nat m /\ (m <= K)%nat /\
                  p = concat (replicate m [cr; cg; cb]) ++ replicate (3 * (K - m)) 0).
  assert (Hbody : forall i p, Inv i p -> i < Buf.len (replicate (3 * K) 0) ->
                     exists p', body i p = Ok p' /\ Inv (i + 3) p').
  { intros i p (m & -> & Hm & ->) Hlt.
    unfold Buf.len in Hlt. rewrite length_replicate in Hlt.
    assert (Hm' : (m < K)%nat) by lia.
    eexists. split; [reflexivity|].
    exists (Datatypes.S m). split; [lia|]. split; [lia|].
    replace (3 * (K - m))%nat
      with (Datatypes.S (Datatypes.S (Datatypes.S (3 * (K - Datatypes.S m))))) by lia.
    set (pre := concat (replicate m [cr; cg; cb])).
    assert (Hlen : Buf.len pre = 3 * Z.of_nat m).
    { unfold Buf.len, pre. rewrite concat_replicate_length. simpl. lia. }
    rewrite <- concat_replicate_end. fold pre.
    simpl replicate. rewrite set_three by now rewrite Hlen.
    rewrite <- !app_assoc. reflexivity. }
  assert (Hinit : Inv 0 (replicate (3 * K) 0)).
  { exists 0%nat. split; [lia|]. split; [lia|].
    replace (K - 0)%nat with K by lia. reflexivity. }
  destruct (for_loop_rule Inv _ 3 body Hbody
              (length (replicate (3 * K) 0)) 0 _ Hinit)
    as (j & p & -> & (m & Hj & Hm & Hp) & Hstop).
  { unfold Buf.len. lia. }
  unfold Buf.len in Hstop. rewrite length_replicate in Hstop.
  assert (m = K) by lia. subst m. rewrite Hp.
  replace (3 * (K - K))%nat with 0%nat by lia. simpl.
  now rewrite app_nil_r.
Qed.

End Scanlines.

Section Rows.

Variables (width height : Z) (pixel : list Z).

Let W := Z.to_nat (width * 3).
Let H := Z.to_nat height.

Hypothesis width_nonneg : 0 <= width.
Hypothesis height_nonneg : 0 <= height.
Hypothesis pixel_bytes : Forall is_byte pixel.
Hypothesis pixel_length : length pixel = (H * W)%nat.

Local Abbreviation row := (row_of W pixel).
Local Abbreviation rows := (rows_upto W pixel).

Lemma rows_upto_S m : rows (Datatypes.S m) = rows m ++ row m.
Proof.
  unfold rows_upto. rewrite seq_S, map_app, concat_app. simpl.
  now rewrite app_nil_r.
Qed.

Lemma row_of_length y : (y < H)%nat -> length (row y) = Datatypes.S W.
Proof.
  intros Hy. unfold row_of. simpl. f_equal.
  rewrite length_take_le; [reflexivity|].
  rewrite length_drop, pixel_length. nia.
Qed.

Lemma rows_upto_length m : (m <= H)%nat -> length (rows m) = (m * Datatypes.S W)%nat.
Proof.
  induction m as [|m IH]; intros Hm; [reflexivity|].
  rewrite rows_upto_S, length_app, IH, row_of_length by lia. lia.
Qed.

Lemma pixel_lookup m k :
  (m < H)%nat -> (k < W)%nat ->
  exists v, Buf.get pixel (Z.of_nat m * width * 3 + Z.of_nat k) = Some v /\
            is_byte v /\ drop (m * W) pixel !! k = Some v.
Proof.
  intros Hm Hk. unfold Buf.get.
  destruct (Z.leb_spec 0 (Z.of_nat m * width * 3 + Z.of_nat k)); [|nia].
  replace (Z.to_nat (Z.of_nat m * width * 3 + Z.of_nat k)) with (m * W + k)%nat
    by (unfold W; nia).
  destruct (lookup_lt_is_Some_2 pixel (m * W + k)) as [v Hv].
  { rewrite pixel_length. nia. }
  exists v. split; [exact Hv|]. split.
  - exact (Forall_lookup_1 _ _ _ _ pixel_bytes Hv).
  - now rewrite lookup_drop.
Qed.

(** The inner loop copies one row. *)
Lemma imageData_row_spec m rest :
  (m < H)%nat ->
  imageData_row width pixel (Z.of_nat m)
    (Z.of_nat (m * Datatypes.S W), rows m ++ replicate (Datatypes.S W) 0 ++ rest)
  = Ok (Z.of_nat (Datatypes.S m * Datatypes.S W), rows (Datatypes.S m) ++ rest).
Proof.
  intros Hm. unfold imageData_row. cbn [fst snd].
  assert (Hlen : Buf.len (rows m) = Z.of_nat (m * Datatypes.S W)).
  { unfold Buf.len. now rewrite rows_upto_length by lia. }
  rewrite <- Hlen. cbn [replicate app]. rewrite set_at. cbn [JS.to_uint8].
  change (0 mod 256) with 0.
  set (Inv := fun (x : Z) (st : Z * list Z) =>
                exists k : nat, x = Z.of_nat k /\ (k <= W)%nat /\
                  fst st = Buf.len (rows m) + 1 + Z.of_nat k /\
                  snd st = (rows m ++ 0 :: take k (drop (m * W) pixel))
                           ++ replicate (W - k) 0 ++ rest).
  set (body := fun (x : Z) (st : Z * list Z) =>
                 Ok (fst st + 1,
                     Buf.set (snd st) (fst st)
                       (Buf.get pixel (Z.of_nat m * width * 3 + x)))).
  assert (Hbody : forall x st, Inv x st -> x < width * 3 ->
                    exists st', body x st = Ok st' /\ Inv (x + 1) st').
  { intros x [pos img] (k & -> & Hk & Hpos & Himg) Hlt. cbn [fst snd] in *.
    assert (Hk' : (k < W)%nat) by (unfold W; lia).
    destruct (pixel_lookup m k Hm Hk') as (v & Hget & Hv & Hdrop).
    eexists. split; [reflexivity|].
    exists (Datatypes.S k). cbn [fst snd].
    split; [lia|]. split; [lia|]. split; [lia|].
    rewrite Hget, Himg.
    replace (W - k)%nat with (Datatypes.S (W - Datatypes.S k)) by lia.
    cbn [replicate app].
    replace pos with (Buf.len (rows m ++ 0 :: take k (drop (m * W) pixel))).
    2:{ rewrite Hpos, len_app. unfold Buf.len. cbn [length].
        rewrite length_take_le; [lia|].
        rewrite length_drop, pixel_length. nia. }
    rewrite set_at. cbn [JS.to_uint8].
    rewrite (Z.mod_small v) by exact Hv.
    rewrite (take_S_r _ _ _ Hdrop).
    repeat (rewrite <- app_assoc || rewrite <- app_comm_cons). reflexivity. }
  assert (Hinit : Inv 0 (Buf.len (rows m) + 1,
                         rows m ++ 0 :: replicate W 0 ++ rest)).
  { exists 0%nat. cbn [fst snd]. split; [lia|]. split; [lia|]. split; [lia|].
    rewrite take_0, Nat.sub_0_r, <- app_assoc. reflexivity. }
  destruct (for_loop_rule Inv (width * 3) 1 body Hbody
              (Z.to_nat (width * 3)) 0 _ Hinit)
    as (j & [pos img] & Hrun & (k & Hj & Hk & Hpos & Himg) & Hstop).
  { lia. }
  fold body. rewrite Hrun. cbn [fst snd] in *.
  assert (k = W) by (unfold W in *; lia). subst k.
  f_equal. f_equal.
  - rewrite Hpos, Hlen. lia.
  - rewrite Himg, Nat.sub_diag, rows_upto_S. cbn [replicate app].
    unfold row_of. now rewrite <- !app_assoc.
Qed.

(** The outer loop: the image data is the rows of the raster, each behind
    its filter byte. *)
Lemma imageData_copy :
  height + Buf.len pixel <= Buf.kMaxLength ->
  imageData width height pixel = Ok (rows H).
Proof.
  intros Hmax. unfold imageData.
  pose proof (len_nonneg pixel).
  rewrite alloc_ok by lia. cbn [bind].
  replace (Z.to_nat (height + Buf.len pixel)) with (H * Datatypes.S W)%nat
    by (unfold Buf.len, H; rewrite pixel_length; fold H; nia).
  set (Inv := fun (y : Z) (st : Z * list Z) =>
                exists m : nat, y = Z.of_nat m /\ (m <= H)%nat /\
                  fst st = Z.of_nat (m * Datatypes.S W) /\
                  snd st = rows m ++ replicate ((H - m) * Datatypes.S W) 0).
  assert (Hbody : forall y st, Inv y st -> y < height ->
                    exists st', imageData_row width pixel y st = Ok st' /\ Inv (y + 1) st').
  { intros y [pos img] (m & -> & Hm & Hpos & Himg) Hlt. cbn [fst snd] in *.
    assert (Hm' : (m < H)%nat) by (unfold H; lia).
    subst pos img.
    replace ((H - m) * Datatypes.S W)%nat
      with (Datatypes.S W + (H - Datatypes.S m) * Datatypes.S W)%nat by nia.
    rewrite replicate_add, imageData_row_spec by exact Hm'.
    eexists. split; [reflexivity|].
    exists (Datatypes.S m). cbn [fst snd].
    split; [lia|]. split; [lia|]. split; reflexivity. }
  assert (Hinit : Inv 0 (0, replicate (H * Datatypes.S W) 0)).
  { exists 0%nat. cbn [fst snd]. split; [lia|]. split; [lia|]. split; [lia|].
    rewrite Nat.sub_0_r. reflexivity. }
  destruct (for_loop_rule Inv height 1 (imageData_row width pixel) Hbody
              (Z.to_nat height) 0 _ Hinit)
    as (j & [pos img] & Hrun & (m & Hj & Hm & Hpos & Himg) & Hstop).
  { lia. }
  rewrite Hrun. cbn [bind fst snd] in *.
  assert (m = H) by (unfold H in *; lia). subst m.
  rewrite Himg, Nat.sub_diag. simpl. now rewrite app_nil_r.
Qed.

End Rows.

Section ScanlineBuffer.

Lemma to_uint8_byte v : is_byte (JS.to_uint8 v).
Proof.
  unfold is_byte. destruct v as [z|]; simpl; [|lia].
  apply Z.mod_pos_bound. lia.
Qed.

Lemma concat_replicate_mul {A} h w (l : list A) :
  concat (replicate (h * w) l) = concat (replicate h (concat (replicate w l))).
Proof.
  induction h as [|h IH]; [reflexivity|].
  simpl. now rewrite replicate_add, concat_app, IH.
Qed.

Lemma take_drop_row {A} (row : list A) h y :
  (y < h)%nat ->
  take (length row) (drop (y * length row) (concat (replicate h row))) = row.
Proof.
  revert y. induction h as [|h IH]; intros y Hy; [lia|].
  simpl replicate. simpl concat. destruct y as [|y].
  - rewrite Nat.mul_0_l, drop_0. apply take_app_length.
  - replace (Datatypes.S y * length row)%nat with (length row + y * length row)%nat by lia.
    rewrite drop_app_add. apply IH. lia.
Qed.

Lemma Forall_concat_replicate {A} (P : A -> Prop) n (l : list A) :
  Forall P l -> Forall P (concat (replicate n l)).
Proof.
  intros Hl. induction n as [|n IH]; simpl; [constructor|].
  now apply Forall_app.
Qed.

(** Copying a raster whose rows are all the same. *)
Lemma rows_upto_uniform (row : list Z) h m :
  (m <= h)%nat ->
  rows_upto (length row) (concat (replicate h row)) m
  = concat (replicate m (0 :: row)).
Proof.
  induction m as [|m IH]; intros Hm; [reflexivity|].
  unfold rows_upto in *. rewrite seq_S, map_app, concat_app, IH by lia.
  rewrite <- concat_replicate_end. f_equal. simpl.
  unfold row_of. now rewrite app_nil_r, take_drop_row by lia.
Qed.

Variables (width height : Z) (c : rgb).
Hypothesis width_nonneg : 0 <= width.
Hypothesis height_nonneg : 0 <= height.
Hypothesis size_ok : height + width * height * 3 <= Buf.kMaxLength.

(** The buffer that generatePNG hands to deflateData. *)
Lemma imageData_spec :
  (p <- pixelData width height c ;; imageData width height p)
  = Ok (scanlines (Z.to_nat width) (Z.to_nat height)
          (JS.to_uint8 (r c)) (JS.to_uint8 (g c)) (JS.to_uint8 (b c))).
Proof.
  rewrite pixelData_spec by nia. cbn [bind].
  set (px := [JS.to_uint8 (r c); JS.to_uint8 (g c); JS.to_uint8 (b c)]).
  set (row := concat (replicate (Z.to_nat width) px)).
  assert (Hrow : length row = Z.to_nat (width * 3)).
  { unfold row. rewrite concat_replicate_length. simpl. lia. }
  replace (Z.to_nat (width * height)) with (Z.to_nat height * Z.to_nat width)%nat by nia.
  rewrite concat_replicate_mul. fold row.
  rewrite imageData_copy; try assumption.
  - rewrite <- Hrow, rows_upto_uniform by lia. reflexivity.
  - apply Forall_concat_replicate. apply Forall_concat_replicate.
    unfold px. repeat (constructor 2; [apply to_uint8_byte|]). constructor 1.
  - rewrite concat_replicate_length, Hrow. reflexivity.
  - unfold Buf.len. rewrite concat_replicate_length, Hrow. nia.
Qed.

End ScanlineBuffer.

Section ScanlineFacts.

Lemma scanline_length w cr cg cb :
  length (scanline w cr cg cb) = (1 + w * 3)%nat.
Proof. unfold scanline. simpl. now rewrite concat_replicate_length. Qed.

Lemma scanlines_length w h cr cg cb :
  length (scanlines w h cr cg cb) = (h * (1 + w * 3))%nat.
Proof.
  unfold scanlines. now rewrite concat_replicate_length, scanline_length.
Qed.

Lemma scanlines_bytes w h cr cg cb :
  is_byte cr -> is_byte cg -> is_byte cb ->
  Forall is_byte (scanlines w h cr cg cb).
Proof.
  intros Hr Hg Hb. unfold scanlines, scanline.
  apply Forall_concat_replicate. constructor; [unfold is_byte; lia|].
  apply Forall_concat_replicate.
  repeat (constructor 2; [assumption|]). constructor 1.
Qed.

End ScanlineFacts.

(** ** The stored blocks *)

Section Blocks.

Lemma block_size_eq : Z.of_nat block_size = 65535.
Proof. unfold block_size. now rewrite Z2Nat.id by lia. Qed.

Opaque block_size.

(** The count is the ceiling of the length over the block size. *)
Lemma block_count_bounds n :
  Z.of_nat n <= 65535 * Z.of_nat (block_count n) < Z.of_nat n + 65535.
Proof.
  unfold block_count.
  assert (0 <= (Z.of_nat n + 65534) / 65535) by (apply Z.div_pos; lia).
  rewrite Z2Nat.id by assumption.
  pose proof (Z.div_mod (Z.of_nat n + 65534) 65535).
  pose proof (Z.mod_pos_bound (Z.of_nat n + 65534) 65535). lia.
Qed.

Lemma chunk_at_bound data k : (length (chunk_at data k) <= block_size)%nat.
Proof. unfold chunk_at. rewrite length_take. lia. Qed.

Lemma concat_chunks data m :
  concat (map (chunk_at data) (seq 0 m)) = take (m * block_size) data.
Proof.
  induction m as [|m IH]; [reflexivity|].
  rewrite seq_S, map_app, concat_app, IH. simpl. rewrite app_nil_r.
  unfold chunk_at. rewrite take_take_drop. f_equal. lia.
Qed.

(** The chunks are the input, in order. *)
Lemma concat_split_blocks data : concat (split_blocks data) = data.
Proof.
  unfold split_blocks. rewrite concat_chunks. apply take_ge.
  pose proof (block_count_bounds (length data)). pose proof block_size_eq. nia.
Qed.

Lemma split_blocks_bound data :
  Forall (fun chunk => Buf.len chunk <= 65535) (split_blocks data).
Proof.
  unfold split_blocks. apply Forall_forall. intros chunk Hin.
  apply list_elem_of_fmap in Hin. destruct Hin as (k & -> & _).
  pose proof (chunk_at_bound data k). pose proof block_size_eq.
  unfold Buf.len. lia.
Qed.

Lemma split_blocks_length data :
  length (split_blocks data) = block_count (length data).
Proof. unfold split_blocks. now rewrite length_map, length_seq. Qed.

(** The scanline buffer of the largest raster, 4096 by 4096 pixels, does not
    fit one block: it is split into 769 blocks. *)
Lemma split_blocks_largest_raster data :
  Buf.len data = 4096 * (1 + 4096 * 3) -> length (split_blocks data) = 769%nat.
Proof.
  intros Hlen. rewrite split_blocks_length. unfold block_count.
  unfold Buf.len in Hlen. rewrite Hlen. reflexivity.
Qed.

(** All blocks but the last carry the flag 0, the last carries 1. *)
Lemma stored_blocks_snoc chunks chunk :
  stored_blocks (chunks ++ [chunk])
  = concat (map (stored_block false) chunks) ++ stored_block true chunk.
Proof.
  induction chunks as [|c cs IH]; [reflexivity|].
  change ((c :: cs) ++ [chunk]) with (c :: (cs ++ [chunk])).
  cbn [stored_blocks map concat]. rewrite IH.
  destruct (cs ++ [chunk]) eqn:E.
  - destruct cs; discriminate.
  - now rewrite <- app_assoc.
Qed.

Lemma emitted_stored_blocks data n :
  concat (map (emitted data n) (seq 0 n)) = stored_blocks (map (chunk_at data) (seq 0 n)).
Proof.
  destruct n as [|n]; [reflexivity|].
  rewrite seq_S, !map_app, concat_app. cbn [map concat Nat.add].
  rewrite stored_blocks_snoc, app_nil_r. unfold emitted at 2.
  rewrite Nat.eqb_refl. f_equal. rewrite map_map. f_equal.
  apply map_ext_in. intros k Hk. apply in_seq in Hk.
  unfold emitted. destruct (Nat.eqb_spec (Datatypes.S k) (Datatypes.S n)); [lia|reflexivity].
Qed.

Lemma lengthBytes_ok {A} n (k : list Z -> result A) :
  0 <= n <= 65535 ->
  (lengthBytes <- Buf.alloc 4 ;;
   lengthBytes <- Buf.writeUInt16LE lengthBytes n 0 ;;
   lengthBytes <- Buf.writeUInt16LE lengthBytes (0xFFFF - n) 2 ;;
   k lengthBytes)
  = k (le16 n ++ le16 (0xFFFF - n)).
Proof.
  intros Hn. rewrite alloc_ok by (unfold Buf.kMaxLength; lia). cbn [bind].
  pose proof (writeUInt16LE_app [] 0 0 [0; 0] n ltac:(lia)) as H1.
  change (Buf.len []) with 0 in H1. cbn [app] in H1.
  change (replicate (Z.to_nat 4) 0) with [0; 0; 0; 0]. rewrite H1. cbn [bind].
  pose proof (writeUInt16LE_app (le16 n) 0 0 [] (0xFFFF - n) ltac:(lia)) as H2.
  change (Buf.len (le16 n)) with 2 in H2. cbn [app le16] in H2 |- *.
  rewrite H2. reflexivity.
Qed.

Variable data : list Z.

Let L := Buf.len data.
Let N := block_count (length data).

(** One iteration: the block at offset 65535 k. *)
Lemma deflate_block_spec k blocks :
  (k < N)%nat ->
  exists blocks',
    deflate_block data (65535 * Z.of_nat k) blocks = Ok blocks' /\
    concat blocks' = concat blocks ++ emitted data N k.
Proof.
  intros Hk. unfold deflate_block.
  pose proof (block_count_bounds (length data)) as HN. fold N in HN.
  pose proof block_size_eq as Hbs.
  set (i := 65535 * Z.of_nat k).
  assert (Hi : i < L) by (unfold i, L, Buf.len; lia).
  assert (Hsub : Buf.subarray data i (Z.min (i + maxBlockSize) (Buf.len data))
                 = chunk_at data k).
  { unfold Buf.subarray, chunk_at, maxBlockSize.
    replace (Z.to_nat i) with (k * block_size)%nat by (unfold i; nia).
    fold L. set (rest := drop (k * block_size) data).
    assert (Hrest : Z.of_nat (length rest) = L - i).
    { unfold rest, L, Buf.len, i. rewrite length_drop. nia. }
    destruct (Z.min_spec (i + 65535) L) as [[Hlt ->]|[Hge ->]].
    - f_equal. lia.
    - rewrite !take_ge by lia. reflexivity. }
  rewrite Hsub.
  assert (Hlen : 0 <= Buf.len (chunk_at data k) <= 65535).
  { pose proof (chunk_at_bound data k). unfold Buf.len. lia. }
  rewrite lengthBytes_ok by exact Hlen.
  eexists. split; [reflexivity|].
  rewrite concat_app. f_equal. cbn [concat]. rewrite app_nil_r.
  unfold emitted, stored_block.
  assert (Hflag : (i + maxBlockSize >=? Buf.len data) = Nat.eqb (Datatypes.S k) N).
  { fold L. unfold maxBlockSize, i.
    destruct (Nat.eqb_spec (Datatypes.S k) N) as [E|E].
    - apply Z.geb_le. unfold L, Buf.len. lia.
    - rewrite Z.geb_leb. apply Z.leb_gt. unfold L, Buf.len. lia. }
  rewrite Hflag.
  destruct (Nat.eqb (Datatypes.S k) N); cbn [Buf.from_array map];
    rewrite <- app_assoc; reflexivity.
Qed.

(** The loop: with the length of the input as fuel it returns the blocks
    of the partition. *)
Lemma deflate_blocks_spec :
  exists blocks,
    deflate_blocks data = Ok blocks /\
    concat blocks = stored_blocks (split_blocks data).
Proof.
  unfold deflate_blocks.
  pose proof (block_count_bounds (length data)) as HN. fold N in HN.
  set (Inv := fun (j : Z) (blocks : list (list Z)) =>
                exists m : nat, j = 65535 * Z.of_nat m /\ (m <= N)%nat /\
                  concat blocks = concat (map (emitted data N) (seq 0 m))).
  assert (Hbody : forall j blocks, Inv j blocks -> j < Buf.len data ->
                    exists blocks', deflate_block data j blocks = Ok blocks' /\
                                    Inv (j + maxBlockSize) blocks').
  { intros j blocks (m & -> & Hm & Hb) Hlt.
    assert (Hm' : (m < N)%nat) by (unfold Buf.len in Hlt; lia).
    destruct (deflate_block_spec m blocks Hm') as (blocks' & -> & Hb').
    exists blocks'. split; [reflexivity|].
    exists (Datatypes.S m). split; [unfold maxBlockSize; lia|]. split; [lia|].
    rewrite Hb', Hb, seq_S, map_app, concat_app. cbn [map concat Nat.add].
    now rewrite app_nil_r. }
  assert (Hinit : Inv 0 []).
  { exists 0%nat. split; [lia|]. split; [lia|]. reflexivity. }
  destruct (for_loop_rule Inv (Buf.len data) maxBlockSize (deflate_block data) Hbody
              (length data) 0 _ Hinit)
    as (j & blocks & Hrun & (m & Hj & Hm & Hb) & Hstop).
  { unfold Buf.len, maxBlockSize. lia. }
  exists blocks. split; [exact Hrun|].
  assert (m = N) by (unfold Buf.len in Hstop; lia). subst m.
  rewrite Hb. apply emitted_stored_blocks.
Qed.

End Blocks.

(** ** The stream and the chunks *)

Section Stream.

(** deflateData returns the stream when the Adler-32 word that adler32
    hands to writeUInt32BE is not negative, and throws otherwise. *)
Lemma deflateData_spec data :
  Forall is_byte data ->
  deflateData data
  = if 0 <=? adler32 data
    then Ok (stream (split_blocks data) data)
    else Throw RangeError.
Proof.
  intros Hb. unfold deflateData.
  destruct (deflate_blocks_spec data) as (blocks & -> & Hblocks).
  cbn [bind]. rewrite alloc_ok by (unfold Buf.kMaxLength; lia). cbn [bind].
  change (replicate (Z.to_nat 4) 0) with ([] ++ [0; 0; 0; 0] ++ []).
  destruct (Z.leb_spec 0 (adler32 data)) as [Hpos|Hneg].
  - pose proof (adler32_nonneg data Hb Hpos) as E.
    pose proof (adler32_spec_range data Hb) as Hr.
    change 0 with (Buf.len []) at 3.
    rewrite writeUInt32BE_app by lia. cbn [bind].
    rewrite E, Hblocks. unfold stream. cbn [concat app].
    now rewrite !app_nil_r.
  - now rewrite writeUInt32BE_throws by exact Hneg.
Qed.

Lemma stored_blocks_length chunks :
  length (stored_blocks chunks) = (5 * length chunks + length (concat chunks))%nat.
Proof.
  induction chunks as [|c cs IH]; [reflexivity|].
  destruct cs as [|c' cs].
  - simpl. rewrite app_nil_r. lia.
  - change (stored_blocks (c :: c' :: cs))
      with (stored_block false c ++ stored_blocks (c' :: cs)).
    rewrite length_app, IH. unfold stored_block, le16.
    cbn [concat length app]. rewrite ?length_app. cbn [length]. lia.
Qed.

Lemma stream_length data :
  Buf.len (stream (split_blocks data) data)
  = 6 + 5 * Z.of_nat (block_count (length data)) + Buf.len data.
Proof.
  unfold stream, Buf.len. rewrite !length_app, stored_blocks_length.
  rewrite concat_split_blocks, split_blocks_length, be32_length. simpl. lia.
Qed.

Lemma stream_bytes data :
  Forall is_byte data -> Forall is_byte (stream (split_blocks data) data).
Proof.
  intros Hb. unfold stream.
  apply Forall_app. split; [repeat (constructor 2; [unfold is_byte; lia|]); constructor 1|].
  apply Forall_app. split; [|apply be32_bytes].
  assert (G : forall chunks, Forall (Forall is_byte) chunks ->
                             Forall is_byte (stored_blocks chunks)).
  { assert (B : forall f c, Forall is_byte c -> Forall is_byte (stored_block f c)).
    { intros f c Hc. unfold stored_block.
      constructor 2; [destruct f; unfold is_byte; lia|].
      unfold le16. repeat (apply Forall_app; split); try exact Hc;
        repeat (constructor 2; [apply Z.mod_pos_bound; lia|]); constructor 1. }
    induction chunks as [|c cs IH]; intros Hcs; [constructor 1|].
    inversion Hcs as [|? ? Hc Hcs']; subst.
    destruct cs as [|c' cs]; [now apply B|].
    change (stored_blocks (c :: c' :: cs))
      with (stored_block false c ++ stored_blocks (c' :: cs)).
    apply Forall_app. split; [now apply B|now apply IH]. }
  apply G. unfold split_blocks. apply Forall_forall. intros chunk Hin.
  apply list_elem_of_fmap in Hin. destruct Hin as (k & -> & _).
  unfold chunk_at. apply Forall_take, Forall_drop, Hb.
Qed.

End Stream.

Section Chunks.

Lemma writeUInt32BE_end pre v :
  0 <= v <= 0xFFFFFFFF ->
  Buf.writeUInt32BE (pre ++ [0; 0; 0; 0]) v (Buf.len (pre ++ [0; 0; 0; 0]) - 4)
  = Ok (pre ++ be32 v).
Proof.
  intros Hv. replace (Buf.len (pre ++ [0; 0; 0; 0]) - 4) with (Buf.len pre).
  - pose proof (writeUInt32BE_app pre 0 0 0 0 [] v Hv) as H.
    now rewrite !app_nil_r in H.
  - rewrite len_app. change (Buf.len [0; 0; 0; 0]) with 4. lia.
Qed.

Lemma writeUInt32BE_start post v :
  0 <= v <= 0xFFFFFFFF ->
  Buf.writeUInt32BE (0 :: 0 :: 0 :: 0 :: post) v 0 = Ok (be32 v ++ post).
Proof.
  intros Hv. exact (writeUInt32BE_app [] 0 0 0 0 post v Hv).
Qed.

Lemma alloc_4 : Buf.alloc 4 = Ok [0; 0; 0; 0].
Proof. reflexivity. Qed.

Lemma crc32_fits data : 0 <= crc32 data <= 0xFFFFFFFF.
Proof. pose proof (crc32_range data). lia. Qed.

Lemma ihdrData_spec width height :
  0 <= width <= 0xFFFFFFFF -> 0 <= height <= 0xFFFFFFFF ->
  ihdrData width height = Ok (header_payload width height).
Proof.
  intros Hw Hh. unfold ihdrData, header_payload.
  change (Buf.alloc 13) with (Ok (0 :: 0 :: 0 :: 0 :: replicate 9 0)).
  cbn [bind]. rewrite writeUInt32BE_start by exact Hw. cbn [bind].
  pose proof (writeUInt32BE_app (be32 width) 0 0 0 0 (replicate 5 0) height Hh) as H4.
  change (Buf.len (be32 width)) with 4 in H4.
  change (be32 width ++ replicate 9 0)
    with (be32 width ++ [0; 0; 0; 0] ++ replicate 5 0).
  rewrite H4. cbn [bind]. unfold be32. reflexivity.
Qed.

Lemma header_payload_length width height :
  Buf.len (header_payload width height) = 13.
Proof. reflexivity. Qed.

Lemma ihdr_spec payload :
  Buf.len payload = 13 -> ihdr payload = Ok (make_chunk "IHDR" payload).
Proof.
  intros Hlen. unfold ihdr, make_chunk. rewrite alloc_4. cbn [bind].
  cbn [concat]. rewrite !app_nil_r, Hlen.
  rewrite !app_assoc, writeUInt32BE_end by apply crc32_fits.
  rewrite <- !app_assoc. reflexivity.
Qed.

Lemma idat_spec compressedData :
  Buf.len compressedData <= 0xFFFFFFFF ->
  idat compressedData = Ok (make_chunk "IDAT" compressedData).
Proof.
  intros Hlen. unfold idat, make_chunk. rewrite alloc_4. cbn [bind].
  cbn [concat]. rewrite !app_nil_r.
  pose proof (len_nonneg compressedData).
  change ([0; 0; 0; 0] ++ ?l) with (0 :: 0 :: 0 :: 0 :: l).
  rewrite writeUInt32BE_start by lia. cbn [bind].
  rewrite !app_assoc, writeUInt32BE_end by apply crc32_fits.
  rewrite <- !app_assoc. reflexivity.
Qed.

Lemma iend_spec : iend = Ok (make_chunk "IEND" []).
Proof.
  unfold iend, make_chunk. rewrite alloc_4. cbn [bind].
  cbn [concat]. rewrite !app_nil_r.
  rewrite !app_assoc, writeUInt32BE_end by apply crc32_fits.
  rewrite <- !app_assoc. reflexivity.
Qed.

End Chunks.

(** ** The encoder *)

Section Encoder.

Variables (width height : Z) (color : string).

Let c := hexToRgb color.
Let S := scanlines (Z.to_nat width) (Z.to_nat height)
           (JS.to_uint8 (r c)) (JS.to_uint8 (g c)) (JS.to_uint8 (b c)).

Hypothesis width_range : 0 <= width <= 0xFFFFFFFF.
Hypothesis height_range : 0 <= height <= 0xFFFFFFFF.
Hypothesis size_range : height + width * height * 3 <= 2 ^ 31.

Lemma scanlines_len : Buf.len S = height * (1 + width * 3).
Proof. unfold Buf.len, S. rewrite scanlines_length. nia. Qed.

(** generatePNG in one equation: the file when the Adler-32 word of the
    scanline buffer is not negative, a RangeError otherwise. *)
Lemma generatePNG_spec :
  generatePNG width height color
  = if 0 <=? adler32 S
    then Ok (signature
             ++ make_chunk "IHDR" (header_payload width height)
             ++ make_chunk "IDAT" (stream (split_blocks S) S)
             ++ make_chunk "IEND" [])
    else Throw RangeError.
Proof.
  unfold generatePNG.
  rewrite ihdrData_spec by assumption. cbn [bind].
  rewrite ihdr_spec by apply header_payload_length. cbn [bind].
  pose proof (imageData_spec width height (hexToRgb color)) as Himg.
  destruct (pixelData width height (hexToRgb color)) as [p|e]; cbn [bind] in *.
  2:{ exfalso. assert (Throw e = Ok S :> result (list Z)); [|discriminate].
      apply Himg; unfold Buf.kMaxLength; lia. }
  rewrite Himg by (unfold Buf.kMaxLength; lia). cbn [bind]. fold c. fold S.
  rewrite deflateData_spec by (apply scanlines_bytes; apply to_uint8_byte).
  destruct (0 <=? adler32 S); cbn [bind]; [|reflexivity].
  rewrite idat_spec.
  - rewrite iend_spec. cbn [bind concat]. now rewrite app_nil_r.
  - rewrite stream_length, scanlines_len.
    pose proof (block_count_bounds (length S)) as HN.
    pose proof scanlines_len as HL. unfold Buf.len in HL. lia.
Qed.

End Encoder.

(** An image one pixel high and 4097 pixels wide, all black: generatePNG
    returns a file. *)
Lemma generatePNG_width_4097 :
  generatePNG 4097 1 "#000000"
  = Ok (signature ++ make_chunk "IHDR" (header_payload 4097 1)
        ++ make_chunk "IDAT"
             (stream (split_blocks (scanlines 4097 1 0 0 0)) (scanlines 4097 1 0 0 0))
        ++ make_chunk "IEND" []).
Proof.
  rewrite generatePNG_spec by lia.
  change (hexToRgb "#000000") with {| r := Some 0; g := Some 0; b := Some 0 |}.
  cbn [r g b JS.to_uint8]. change (0 mod 256) with 0.
  replace (Z.to_nat 4097) with 4097%nat by lia.
  replace (Z.to_nat 1) with 1%nat by lia.
  assert (E : (0 <=? adler32 (scanlines 4097 1 0 0 0)) = true)
    by (vm_compute; reflexivity).
  rewrite E. reflexivity.
Qed.

(** ** Colours *)

Section Colours.

Lemma is_hex_digit_cases ch : is_hex_digit ch = true -> In ch hex_digits.
Proof.
  destruct ch as [b0 b1 b2 b3 b4 b5 b6 b7].
  destruct b0, b1, b2, b3, b4, b5, b6, b7; intros H;
    try (vm_compute in H; discriminate H); vm_compute; tauto.
Qed.

Lemma hex_digit_value_range ch :
  is_hex_digit ch = true -> 0 <= hex_digit_value ch < 16.
Proof.
  intros H. apply is_hex_digit_cases in H. unfold hex_digits in H. simpl in H.
  repeat (destruct H as [<-|H]; [vm_compute; split; [discriminate|reflexivity]|]).
  destruct H.
Qed.

(** Two hexadecimal digits: parseInt reads both. *)
Lemma parseInt16_two c1 c2 :
  is_hex_digit c1 = true -> is_hex_digit c2 = true ->
  parseInt16 (String c1 (String c2 EmptyString))
  = Some (16 * hex_digit_value c1 + hex_digit_value c2).
Proof.
  intros H1 H2. apply is_hex_digit_cases in H1, H2.
  unfold hex_digits in H1, H2. simpl in H1, H2.
  repeat (destruct H1 as [<-|H1];
          [repeat (destruct H2 as [<-|H2]; [vm_compute; reflexivity|]); destruct H2|]).
  destruct H1.
Qed.

Lemma two_digits_byte c1 c2 :
  is_hex_digit c1 = true -> is_hex_digit c2 = true ->
  is_byte (16 * hex_digit_value c1 + hex_digit_value c2).
Proof.
  intros H1 H2. apply hex_digit_value_range in H1, H2. unfold is_byte. lia.
Qed.

Lemma isValidColor_shape color :
  isValidColor color = true ->
  exists digits, color = String "#" digits /\ all_hex digits = true /\
                 (String.length digits = 3 \/ String.length digits = 6)%nat.
Proof.
  destruct color as [|c0 digits]; [discriminate|].
  destruct c0 as [b0 b1 b2 b3 b4 b5 b6 b7].
  destruct b0, b1, b2, b3, b4, b5, b6, b7; try discriminate.
  unfold isValidColor. intros H. apply andb_prop in H as [Hh Hl].
  exists digits. split; [reflexivity|]. split; [exact Hh|].
  apply orb_prop in Hl as [Hl|Hl]; apply Nat.eqb_eq in Hl; auto.
Qed.

(** A colour that passed the validation is a triplet of bytes. *)
Lemma hexToRgb_valid color :
  isValidColor color = true ->
  exists cr cg cb, is_byte cr /\ is_byte cg /\ is_byte cb /\
    hexToRgb color = {| r := Some cr; g := Some cg; b := Some cb |}.
Proof.
  intros H. apply isValidColor_shape in H as (digits & -> & Hhex & Hlen).
  unfold hexToRgb. change (remove_hash (String "#" digits)) with digits.
  destruct digits as [|d0 [|d1 [|d2 [|d3 [|d4 [|d5 [|d6 rest]]]]]]];
    simpl in Hlen; try (exfalso; lia).
  - simpl in Hhex.
    repeat (apply andb_prop in Hhex as [? Hhex]).
    cbn [String.substring].
    rewrite !parseInt16_two by assumption.
    do 3 eexists. repeat split; try reflexivity;
      apply hex_digit_value_range in H, H0, H1; lia.
  - simpl in Hhex.
    repeat (apply andb_prop in Hhex as [? Hhex]).
    cbn [String.substring].
    rewrite !parseInt16_two by assumption.
    do 3 eexists. repeat split; try reflexivity;
      apply hex_digit_value_range in H, H0, H1, H2, H3, H4; lia.
Qed.

End Colours.

(** ** The validation of the handler *)

Section Validation.

Lemma number_check v :
  jstype_eqb (typeof v) TNumber = true -> gt_0 v = true -> le_4096 v = true ->
  accepted_dimension v.
Proof.
  destruct v as [| | |n| | |]; try discriminate. intros _ Hgt Hle.
  destruct n as [|neg|q]; simpl in *.
  - discriminate.
  - destruct neg; discriminate.
  - exists q. split; [reflexivity|]. split.
    + apply Qnot_le_lt. intros Hq. apply Qle_bool_iff in Hq.
      rewrite Hq in Hgt. discriminate.
    + now apply Qle_bool_iff.
Qed.

Lemma accepted_checks q :
  (0 < q)%Q -> (q <= 4096)%Q ->
  gt_0 (JNumber (Finite q)) = true /\ le_4096 (JNumber (Finite q)) = true.
Proof.
  intros Hgt Hle. simpl. split.
  - destruct (Qle_bool q 0) eqn:E; [|reflexivity].
    apply Qle_bool_iff in E. exfalso. exact (Qlt_not_le _ _ Hgt E).
  - now apply Qle_bool_iff.
Qed.

Lemma isValidGenerateImageArgs_dimensions args :
  isValidGenerateImageArgs args = true ->
  accepted_dimension (prop args "width") /\ accepted_dimension (prop args "height").
Proof.
  unfold isValidGenerateImageArgs. intros H.
  repeat (apply andb_prop in H as [H ?]).
  split; apply number_check; assumption.
Qed.

End Validation.

(** ** The sign of adler32 *)

Section AdlerSign.

(** adler32 is negative exactly when the sum b has reached 2^15. *)
Lemma adler32_sign data :
  Forall is_byte data ->
  (0 <=? adler32 data) = (snd (adler32_sums data) <? 2 ^ 15).
Proof.
  intros H. rewrite adler32_signed by exact H.
  pose proof (adler32_spec_range data H) as Hr.
  rewrite to_int32_of_uint32 by exact Hr.
  rewrite adler32_spec_sum in * by exact H.
  destruct (adler32_sums_range data H) as [Ha Hb].
  destruct (Z.ltb_spec (snd (adler32_sums data)) (2 ^ 15));
    destruct (Z.ltb_spec (snd (adler32_sums data) * 2 ^ 16 + fst (adler32_sums data)) (2 ^ 31));
    lia.
Qed.

End AdlerSign.

(** ** The rounding of the arithmetic on numbers *)

Section Rounding.

Lemma ilog2_below q :
  (0 < q)%Q -> (q < inject_Z (2 ^ 53))%Q -> Double.ilog2 q <= 52.
Proof.
  intros Hpos Hlt. unfold Double.ilog2.
  destruct q as [n d]. unfold Qlt in Hpos, Hlt. cbn [Qnum Qden inject_Z] in *.
  rewrite Z.mul_1_r in Hpos, Hlt. cbn [Z.mul] in Hpos.
  rewrite Z.abs_eq by lia.
  pose proof (Z.log2_spec n Hpos) as [Hn _].
  pose proof (Z.log2_spec (Z.pos d) (Pos2Z.is_pos d)) as [_ Hd].
  pose proof (Z.log2_nonneg (Z.pos d)) as Hb.
  pose proof (Z.log2_nonneg n) as Ha.
  set (a := Z.log2 n) in *. set (b := Z.log2 (Z.pos d)) in *.
  assert (Hk : a - b <= 53).
  { destruct (Z.le_gt_cases (a - b) 53) as [H|H]; [exact H|exfalso].
    assert (2 ^ (54 + b) <= 2 ^ a) by (apply Z.pow_le_mono_r; lia).
    rewrite Z.pow_add_r in H0 by lia.
    replace (Z.succ b) with (1 + b) in Hd by lia.
    rewrite Z.pow_add_r in Hd by lia.
    change (2 ^ 54) with (2 * 2 ^ 53) in H0. change (2 ^ 1) with 2 in Hd.
    assert (0 < 2 ^ b) by (apply Z.pow_pos_nonneg; lia). nia. }
  destruct (Z.leb_spec (Z.pos d * 2 ^ Z.max (a - b) 0) (n * 2 ^ Z.max (- (a - b)) 0))
    as [Hle|Hgt]; [|lia].
  destruct (Z.eq_dec (a - b) 53) as [E|E]; [|lia].
  rewrite E in Hle. change (Z.max 53 0) with 53 in Hle.
  rewrite Z.max_r, Z.pow_0_r in Hle by lia. lia.
Qed.



(** A power of two with an exponent that is not positive. *)
Lemma pow2_neg p : p <= 0 -> (2 ^ p == / inject_Z (2 ^ (- p)))%Q.
Proof.
  intros Hp. replace p with (- - p) at 1 by lia.
  rewrite Qpower_opp. apply Qinv_comp.
  now rewrite Zpower_Qpower by lia.
Qed.



End Rounding.

(** ** The encoder on numbers *)

Section NumberLoops.

Context {St : Type}.
Variable Inv : Z -> St -> Prop.
Variables (stop : Q) (body : Z -> St -> result St).
Hypothesis body_ok :
  forall i s, Inv i s -> Double.lt i stop = true ->
              exists s', body i s = Ok s' /\ Inv (i + 1) s'.



End NumberLoops.

Section NumberBuffers.




End NumberBuffers.

Section NumberEncoder.

Variables (width height : Q) (color : string).
Hypothesis width_range : (0 <= width)%Q /\ (width <= 8192)%Q.
Hypothesis height_range : (0 <= height)%Q /\ (height <= 8192)%Q.

Let c := hexToRgb color.
Let size := Qfloor (Double.mul (Double.mul width height) 3).








End NumberEncoder.

(** ** The encoder on numbers, where the numbers are integers *)

Section IntegerNumbers.

Lemma round_half_even_integer q k :
  (q == inject_Z k)%Q -> Double.round_half_even q = k.
Proof.
  intros E. unfold Double.round_half_even.
  assert (Hf : Qfloor q = k) by (rewrite E; apply Qfloor_Z).
  rewrite Hf. cbv zeta.
  assert (H : (q - inject_Z k ?= 1 # 2)%Q = Lt).
  { apply Qlt_alt. rewrite E.
    unfold Qminus. rewrite Qplus_opp_r. reflexivity. }
  now rewrite H.
Qed.

(** An integer below 2^53 is a double: rounding returns it. *)
Lemma round_integer q z :
  (q == inject_Z z)%Q -> 0 <= z < 2 ^ 53 -> (Double.round q == inject_Z z)%Q.
Proof.
  intros E Hz. unfold Double.round.
  destruct (Qeq_bool q 0) eqn:E0.
  - apply Qeq_bool_iff in E0. now rewrite <- E, E0.
  - assert (Hpos : (0 < q)%Q).
    { rewrite E. change 0%Q with (inject_Z 0). rewrite <- Zlt_Qlt.
      destruct (Z.eq_dec z 0) as [->|]; [|lia].
      change (inject_Z 0) with 0%Q in E. apply Qeq_bool_iff in E. congruence. }
    assert (He : Double.ilog2 q <= 52).
    { apply ilog2_below; [exact Hpos|]. rewrite E. rewrite <- Zlt_Qlt. lia. }
    rewrite Qred_correct.
    set (p := Z.max _ _). assert (Hp : p <= 0) by (unfold p; lia).
    assert (Hs : 0 < 2 ^ (- p)) by (apply Z.pow_pos_nonneg; lia).
    pose proof (pow2_neg p Hp) as Hpow.
    set (s := 2 ^ (- p)) in *.
    assert (Hs' : ~ (inject_Z s == 0)%Q).
    { change 0%Q with (inject_Z 0). rewrite inject_Z_injective. lia. }
    rewrite (round_half_even_integer _ (z * s)).
    + rewrite Hpow, inject_Z_mult. now field.
    + rewrite Hpow, E, inject_Z_mult. now field.
Qed.

Lemma mul_integer x y a b :
  (x == inject_Z a)%Q -> (y == inject_Z b)%Q -> 0 <= a * b < 2 ^ 53 ->
  (Double.mul x y == inject_Z (a * b))%Q.
Proof.
  intros Ex Ey H. apply round_integer; [|exact H].
  now rewrite Ex, Ey, inject_Z_mult.
Qed.

Lemma add_integer x y a b :
  (x == inject_Z a)%Q -> (y == inject_Z b)%Q -> 0 <= a + b < 2 ^ 53 ->
  (Double.add x y == inject_Z (a + b))%Q.
Proof.
  intros Ex Ey H. apply round_integer; [|exact H].
  now rewrite Ex, Ey, inject_Z_plus.
Qed.

Lemma Qle_bool_integer a b : Qle_bool (inject_Z a) (inject_Z b) = (a <=? b).
Proof.
  destruct (Z.leb_spec a b) as [H|H].
  - apply Qle_bool_iff. now rewrite <- Zle_Qle.
  - destruct (Qle_bool _ _) eqn:E; [|reflexivity].
    apply Qle_bool_iff in E. rewrite <- Zle_Qle in E. lia.
Qed.

Lemma Qle_bool_comp q q' r r' :
  (q == q')%Q -> (r == r')%Q -> Qle_bool q r = Qle_bool q' r'.
Proof.
  intros Eq Er. destruct (Qle_bool q' r') eqn:E.
  - apply Qle_bool_iff. apply Qle_bool_iff in E. now rewrite Eq, Er.
  - destruct (Qle_bool q r) eqn:E'; [|reflexivity].
    apply Qle_bool_iff in E'. rewrite Eq, Er in E'.
    apply Qle_bool_iff in E'. congruence.
Qed.

Lemma lt_integer i q z : (q == inject_Z z)%Q -> Double.lt i q = (i <? z).
Proof.
  intros E. unfold Double.lt.
  rewrite (Qle_bool_comp q (inject_Z z) (inject_Z i) (inject_Z i) E (Qeq_refl _)).
  rewrite Qle_bool_integer. rewrite Z.ltb_antisym. reflexivity.
Qed.

Lemma alloc_integer q z : (q == inject_Z z)%Q -> Double.alloc q = Buf.alloc z.
Proof.
  intros E. unfold Double.alloc.
  assert (Hf : Qfloor q = z) by (rewrite E; apply Qfloor_Z).
  rewrite (Qle_bool_comp 0 (inject_Z 0) q (inject_Z z) (Qeq_refl _) E).
  rewrite (Qle_bool_comp q (inject_Z z) _ _ E (Qeq_refl _)).
  rewrite !Qle_bool_integer, Hf.
  destruct ((0 <=? z) && (z <=? Buf.kMaxLength)) eqn:Ec; [reflexivity|].
  unfold Buf.alloc. now rewrite Ec.
Qed.

Lemma writeUInt32BE_integer buf z offset :
  Double.writeUInt32BE buf (inject_Z z) offset = Buf.writeUInt32BE buf z offset.
Proof.
  unfold Double.writeUInt32BE.
  change 0%Q with (inject_Z 0). rewrite !Qle_bool_integer, Qfloor_Z.
  destruct ((0 <=? z) && (z <=? 0xFFFFFFFF)) eqn:E; [reflexivity|].
  unfold Buf.writeUInt32BE, Buf.check. rewrite E. reflexivity.
Qed.

Lemma get_integer p q z : (q == inject_Z z)%Q -> Double.get p q = Buf.get p z.
Proof.
  intros E. unfold Double.get. rewrite (Qred_complete _ _ E).
  rewrite Qred_identity by apply Z.gcd_1_r. reflexivity.
Qed.

Lemma number_loop_integer {St : Type} (stop : Q) (z : Z)
    (body body' : Z -> St -> result St) fuel i s :
  (stop == inject_Z z)%Q ->
  (forall j s, i <= j < z -> body j s = body' j s) ->
  Double.for_lt fuel i stop body s = for_loop fuel i z 1 body' s.
Proof.
  intros E. revert i s. induction fuel as [|fuel IH]; intros i s Hbody.
  - simpl. now rewrite (lt_integer i stop z E).
  - simpl. rewrite (lt_integer i stop z E).
    destruct (Z.ltb_spec i z) as [Hlt|Hge]; [|reflexivity].
    rewrite Hbody by lia. destruct (body' i s) as [s'|e]; [|reflexivity].
    cbn [bind]. apply IH. intros j s0 Hj. apply Hbody. lia.
Qed.

Variables (width height : Z) (color : string).
Hypothesis width_range : 0 <= width <= 8192.
Hypothesis height_range : 0 <= height <= 8192.

Lemma ihdrData_integer :
  Double.ihdrData (inject_Z width) (inject_Z height) = ihdrData width height.
Proof.
  unfold Double.ihdrData, ihdrData.
  destruct (Buf.alloc 13) as [d|e]; [|reflexivity]. cbn [bind].
  rewrite writeUInt32BE_integer.
  destruct (Buf.writeUInt32BE d width 0) as [d'|e]; [|reflexivity]. cbn [bind].
  now rewrite writeUInt32BE_integer.
Qed.

Lemma pixelData_integer c :
  Double.pixelData (inject_Z width) (inject_Z height) c = pixelData width height c.
Proof.
  unfold Double.pixelData, pixelData.
  rewrite (alloc_integer _ (width * height * 3)); [reflexivity|].
  apply mul_integer; [|reflexivity|nia].
  apply mul_integer; [reflexivity|reflexivity|nia].
Qed.

Lemma imageData_row_integer p y st :
  0 <= y < height ->
  Double.imageData_row (inject_Z width) p y st = imageData_row width p y st.
Proof.
  intros Hy. unfold Double.imageData_row, imageData_row.
  assert (E3 : (Double.mul (inject_Z width) 3 == inject_Z (width * 3))%Q).
  { apply mul_integer; [reflexivity|reflexivity|lia]. }
  rewrite E3 at 1. rewrite Qceiling_Z.
  apply number_loop_integer; [exact E3|].
  intros x s Hx. do 3 f_equal. apply get_integer.
  apply add_integer; [|reflexivity|nia].
  apply mul_integer; [|reflexivity|nia].
  apply mul_integer; [reflexivity|reflexivity|nia].
Qed.

Lemma imageData_integer p :
  Buf.len p <= 3 * 2 ^ 26 ->
  Double.imageData (inject_Z width) (inject_Z height) p = imageData width height p.
Proof.
  intros Hp. unfold Double.imageData, imageData. pose proof (len_nonneg p).
  rewrite (alloc_integer _ (height + Buf.len p));
    [|apply add_integer; [reflexivity|reflexivity|lia]].
  destruct (Buf.alloc _) as [img|e]; [|reflexivity]. cbn [bind].
  rewrite Qceiling_Z.
  rewrite (number_loop_integer (inject_Z height) height
             (Double.imageData_row (inject_Z width) p) (imageData_row width p));
    [reflexivity|reflexivity|].
  intros y s Hy. now apply imageData_row_integer.
Qed.

(** On integers the encoder on numbers is the encoder above. *)
Lemma generatePNG_integer :
  Double.generatePNG (inject_Z width) (inject_Z height) color
  = generatePNG width height color.
Proof.
  unfold Double.generatePNG, generatePNG.
  rewrite ihdrData_integer, pixelData_integer.
  destruct (ihdrData width height) as [d|e]; [|reflexivity]. cbn [bind].
  destruct (ihdr d) as [d'|e]; [|reflexivity]. cbn [bind].
  pose proof (pixelData_spec width height (hexToRgb color)
                ltac:(nia) ltac:(unfold Buf.kMaxLength; nia)) as Hp.
  rewrite Hp. cbn [bind]. rewrite imageData_integer; [reflexivity|].
  unfold Buf.len. rewrite concat_replicate_length. cbn [length]. nia.
Qed.

End IntegerNumbers.

(** * The specification, claim by claim *)

(** C1: for encode(2,2,{255,0,0}) the scanline buffer built before
    compression is the 14 bytes 0,255,0,0,255,0,0,0,255,0,0,255,0,0, and the
    stream produced from it is the header 0x78 0x01, one stored block with
    header byte 0x01, length 0x000E and complement 0xFFF1 in little-endian
    order, the 14 bytes verbatim, and the big-endian Adler-32 of those 14
    bytes; that stream is the payload of the data chunk of the file. *)
Theorem encode_2x2_red :
  let red := {| r := Some 255; g := Some 0; b := Some 0 |} in
  let buffer := [0; 255; 0; 0; 255; 0; 0; 0; 255; 0; 0; 255; 0; 0] in
  let compressed :=
    [0x78; 0x01] ++ [0x01] ++ [0x0E; 0x00] ++ [0xF1; 0xFF] ++ buffer
    ++ be32 (adler32_spec buffer) in
  hexToRgb "#ff0000" = red /\
  (p <- pixelData 2 2 red ;; imageData 2 2 p) = Ok buffer /\
  Buf.len buffer = 2 * (1 + 2 * 3) /\
  deflateData buffer = Ok compressed /\
  generatePNG 2 2 "#ff0000"
  = Ok (signature ++ make_chunk "IHDR" (header_payload 2 2)
        ++ make_chunk "IDAT" compressed ++ make_chunk "IEND" []).
Proof.
  cbv zeta. repeat split; vm_compute; reflexivity.
Qed.

(** C2: on every input the stream wrapper should emit the header, the
    stored blocks of the partition and the Adler-32 trailer.  On the scanline
    buffer of a white image of 6 by 1 pixels (19 bytes) the sum b of Adler-32
    reaches 2^15, adler32 returns a negative number, writeUInt32BE rejects
    it, and neither deflateData nor generatePNG returns anything. *)
Theorem deflateData_throws_on_white_row :
  let buffer := scanlines 6 1 255 255 255 in
  Forall is_byte buffer /\
  2 ^ 15 <= snd (adler32_sums buffer) /\
  adler32 buffer < 0 /\
  deflateData buffer = Throw RangeError /\
  generatePNG 6 1 "#ffffff" = Throw RangeError.
Proof.
  cbv zeta. split.
  - apply scanlines_bytes; unfold is_byte; lia.
  - repeat split; vm_compute; congruence.
Qed.

(** C3: on the empty input the stream wrapper should still emit one empty
    final stored block.  The loop of deflateData does not run on an empty
    buffer: the output is the header and the trailer with no block between
    them, and differs from the stream with the one empty final block. *)
Theorem deflateData_empty_has_no_block :
  deflateData [] = Ok ([0x78; 0x01] ++ [0x00; 0x00; 0x00; 0x01]) /\
  deflateData [] <> Ok (stream [[]] []) /\
  stream [[]] [] = [0x78; 0x01] ++ [0x01; 0x00; 0x00; 0xFF; 0xFF] ++ [0x00; 0x00; 0x00; 0x01].
Proof.
  repeat split; vm_compute; congruence.
Qed.

(** C4: adler32 should return the unsigned 32-bit word (b << 16) | a.  On
    sixteen bytes 0xFF the sums are a = 0x0FF1 and b = 0x8788; the code
    returns the int32 reading of the word, a negative number, where the
    word is 0x87880FF1.  On the empty input it returns 1. *)
Theorem adler32_returns_negative :
  let data := replicate 16 255 in
  adler32_sums data = (0x0FF1, 0x8788) /\
  adler32_spec data = 0x87880FF1 /\
  adler32 data = 0x87880FF1 - 2 ^ 32 /\
  adler32 data < 0 /\
  adler32 [] = 1.
Proof.
  repeat split; vm_compute; reflexivity.
Qed.

(** C5: on every byte sequence crc32 is the standard reflected CRC-32
    (polynomial 0xEDB88320, accumulator started at all ones and inverted at
    the end), and on the empty sequence it is 0.  The reference has the
    check value 0xCBF43926 on the digits 1 to 9. *)
Theorem crc32_is_standard (data : list Z) :
  Forall is_byte data ->
  crc32 data = crc32_reference data /\
  crc32 [] = 0 /\
  crc32_reference (Buf.from_string "123456789") = 0xCBF43926.
Proof.
  intros H. split; [now apply crc32_matches_reference|].
  split; vm_compute; reflexivity.
Qed.

Lemma crc32_is_standard_witness :
  Forall is_byte [0x49; 0x45; 0x4E; 0x44] /\
  crc32 [0x49; 0x45; 0x4E; 0x44] = crc32_reference [0x49; 0x45; 0x4E; 0x44].
Proof.
  assert (H : Forall is_byte [0x49; 0x45; 0x4E; 0x44]).
  { repeat (constructor 2; [unfold is_byte; lia|]). constructor 1. }
  split; [exact H|]. exact (proj1 (crc32_is_standard _ H)).
Defined.

(** C6: every chunk that the encoder emits is the length of the payload as
    4 bytes big-endian, the 4-byte tag, the payload, and crc32 of tag and
    payload (not of the length) as 4 bytes big-endian: the header chunk, the
    data chunk whose payload is the compressed bytes, and the end chunk
    whose payload is empty; a file that generatePNG returns consists of the
    signature and these three chunks. *)
Theorem chunk_layout (width height : Z) (color : string) :
  valid_dimension width -> valid_dimension height ->
  (d <- ihdrData width height ;; ihdr d)
  = Ok (be32 13 ++ Buf.from_string "IHDR" ++ header_payload width height
        ++ be32 (crc32 (Buf.from_string "IHDR" ++ header_payload width height))) /\
  (forall compressedData,
     Buf.len compressedData <= 0xFFFFFFFF ->
     idat compressedData
     = Ok (be32 (Buf.len compressedData) ++ Buf.from_string "IDAT" ++ compressedData
           ++ be32 (crc32 (Buf.from_string "IDAT" ++ compressedData)))) /\
  iend = Ok (be32 0 ++ Buf.from_string "IEND" ++ []
             ++ be32 (crc32 (Buf.from_string "IEND" ++ []))) /\
  (forall out,
     generatePNG width height color = Ok out ->
     exists compressedData,
       deflateData (scanlines (Z.to_nat width) (Z.to_nat height)
                      (JS.to_uint8 (r (hexToRgb color)))
                      (JS.to_uint8 (g (hexToRgb color)))
                      (JS.to_uint8 (b (hexToRgb color)))) = Ok compressedData /\
       Buf.len compressedData <= 0xFFFFFFFF /\
       out = signature ++ make_chunk "IHDR" (header_payload width height)
             ++ make_chunk "IDAT" compressedData ++ make_chunk "IEND" []).
Proof.
  unfold valid_dimension. intros Hw Hh.
  split; [|split; [|split]].
  - rewrite ihdrData_spec by lia. cbn [bind].
    now rewrite ihdr_spec by apply header_payload_length.
  - intros z Hz. now rewrite idat_spec by exact Hz.
  - exact iend_spec.
  - intros out. rewrite generatePNG_spec by nia.
    rewrite deflateData_spec by (apply scanlines_bytes; apply to_uint8_byte).
    destruct (0 <=? adler32 _); [|discriminate].
    intros Hout. apply Ok_inj in Hout. eexists.
    split; [reflexivity|]. split; [|symmetry; exact Hout].
    rewrite stream_length. unfold Buf.len. rewrite scanlines_length.
    pose proof (block_count_bounds
                  (Z.to_nat height * (1 + Z.to_nat width * 3))) as HN.
    nia.
Qed.

Lemma chunk_layout_witness :
  valid_dimension 2 /\ valid_dimension 2 /\
  iend = Ok (be32 0 ++ Buf.from_string "IEND" ++ []
             ++ be32 (crc32 (Buf.from_string "IEND" ++ []))).
Proof.
  assert (H : valid_dimension 2) by (unfold valid_dimension; lia).
  split; [exact H|]. split; [exact H|].
  exact (proj1 (proj2 (proj2 (chunk_layout 2 2 "#ff0000" H H)))).
Defined.

(** C7: for every valid width, height and colour generatePNG should return
    the signature followed by the header chunk, the data chunk and the end
    chunk.  For the valid request of a red image of 3 by 3 pixels, which the
    handler passes on, it returns nothing: the sum b of the Adler-32 of the
    scanline buffer is 36750, above 2^15, adler32 returns a negative number,
    and writeUInt32BE throws inside deflateData. *)
Theorem generatePNG_throws_on_valid_request :
  let request := JObject [("width", JNumber (Finite 3)); ("height", JNumber (Finite 3));
                          ("color", JString "#ff0000"); ("filepath", JString "red.png")] in
  valid_dimension 3 /\ isValidColor "#ff0000" = true /\
  handleGenerateImage request
  = Generate (JNumber (Finite 3)) (JNumber (Finite 3)) (JString "#ff0000") (JString "red.png") /\
  snd (adler32_sums (scanlines 3 3 255 0 0)) = 36750 /\
  adler32 (scanlines 3 3 255 0 0) < 0 /\
  generatePNG 3 3 "#ff0000" = Throw RangeError.
Proof.
  cbv zeta. split; [unfold valid_dimension; lia|].
  repeat split; vm_compute; congruence.
Qed.

(** Where generatePNG returns, the layout is the one of the specification:
    for valid width, height and colour it returns exactly when deflateData
    returns the stream of the scanline buffer of the colour, and then the
    file is the 8-byte signature followed by the header chunk, the data
    chunk and the end chunk in this order; the width and height in the
    payload of the header chunk, at offsets 16 and 20 of the file, decode
    back as 4-byte big-endian integers to the width and height given. *)
Lemma file_layout (width height : Z) (color : string) :
  valid_dimension width -> valid_dimension height -> isValidColor color = true ->
  exists cr cg cb,
    hexToRgb color = {| r := Some cr; g := Some cg; b := Some cb |} /\
    generatePNG width height color
    = (compressedData <-
         deflateData (scanlines (Z.to_nat width) (Z.to_nat height) cr cg cb) ;;
       Ok ([0x89; 0x50; 0x4E; 0x47; 0x0D; 0x0A; 0x1A; 0x0A]
           ++ make_chunk "IHDR" (header_payload width height)
           ++ make_chunk "IDAT" compressedData
           ++ make_chunk "IEND" [])) /\
    decode_be32 (take 4 (header_payload width height)) = width /\
    decode_be32 (take 4 (drop 4 (header_payload width height))) = height /\
    (forall out,
       generatePNG width height color = Ok out ->
       take 8 out = [0x89; 0x50; 0x4E; 0x47; 0x0D; 0x0A; 0x1A; 0x0A] /\
       decode_be32 (take 4 (drop 16 out)) = width /\
       decode_be32 (take 4 (drop 20 out)) = height).
Proof.
  intros Hw Hh Hc. unfold valid_dimension in Hw, Hh.
  destruct (hexToRgb_valid color Hc) as (cr & cg & cb & Hr & Hg & Hb & Hrgb).
  exists cr, cg, cb. split; [exact Hrgb|].
  assert (Hspec := generatePNG_spec width height color
                     ltac:(lia) ltac:(lia) ltac:(nia)).
  rewrite Hrgb in Hspec. cbn [r g b JS.to_uint8] in Hspec.
  unfold is_byte in Hr, Hg, Hb. rewrite !Z.mod_small in Hspec by lia.
  set (buffer := scanlines (Z.to_nat width) (Z.to_nat height) cr cg cb) in *.
  assert (Hdw : decode_be32 (be32 width) = width) by (apply decode_be32_be32; lia).
  assert (Hdh : decode_be32 (be32 height) = height) by (apply decode_be32_be32; lia).
  split; [|split; [|split]].
  - rewrite Hspec, deflateData_spec.
    + destruct (0 <=? adler32 buffer); reflexivity.
    + apply scanlines_bytes; unfold is_byte; lia.
  - exact Hdw.
  - exact Hdh.
  - intros out. rewrite Hspec. destruct (0 <=? adler32 buffer); [|discriminate].
    intros Hout. apply Ok_inj in Hout. subst out.
    split; [reflexivity|]. split; [exact Hdw|exact Hdh].
Qed.

Lemma file_layout_witness :
  valid_dimension 2 /\ isValidColor "#ff0000" = true /\
  exists cr cg cb,
    hexToRgb "#ff0000" = {| r := Some cr; g := Some cg; b := Some cb |} /\
    generatePNG 2 2 "#ff0000"
    = (compressedData <- deflateData (scanlines (Z.to_nat 2) (Z.to_nat 2) cr cg cb) ;;
       Ok ([0x89; 0x50; 0x4E; 0x47; 0x0D; 0x0A; 0x1A; 0x0A]
           ++ make_chunk "IHDR" (header_payload 2 2)
           ++ make_chunk "IDAT" compressedData
           ++ make_chunk "IEND" [])).
Proof.
  assert (H : valid_dimension 2) by (unfold valid_dimension; lia).
  split; [exact H|]. split; [reflexivity|].
  destruct (file_layout 2 2 "#ff0000" H H eq_refl) as (cr & cg & cb & Hrgb & Hgen & _).
  exists cr, cg, cb. split; [exact Hrgb|exact Hgen].
Defined.

(** C8: for valid width w and height h and a colour of bytes r, g, b, the
    buffer that is handed to the stream wrapper is h rows, each the framing
    byte 0 followed by w times the three bytes r, g, b; its length is
    h * (1 + w * 3). *)
Theorem scanline_buffer_layout (width height cr cg cb : Z) :
  valid_dimension width -> valid_dimension height ->
  is_byte cr -> is_byte cg -> is_byte cb ->
  let c := {| r := Some cr; g := Some cg; b := Some cb |} in
  let row := 0 :: concat (replicate (Z.to_nat width) [cr; cg; cb]) in
  exists imageData',
    (p <- pixelData width height c ;; imageData width height p) = Ok imageData' /\
    imageData' = concat (replicate (Z.to_nat height) row) /\
    Buf.len imageData' = height * (1 + width * 3).
Proof.
  intros Hw Hh Hr Hg Hb c row. unfold valid_dimension in Hw, Hh.
  exists (scanlines (Z.to_nat width) (Z.to_nat height) cr cg cb).
  split; [|split].
  - rewrite imageData_spec by (unfold Buf.kMaxLength; nia).
    unfold c. cbn [r g b JS.to_uint8].
    unfold is_byte in *. now rewrite !Z.mod_small by lia.
  - reflexivity.
  - unfold Buf.len. rewrite scanlines_length. nia.
Qed.

Lemma scanline_buffer_layout_witness :
  valid_dimension 2 /\ is_byte 255 /\ is_byte 0 /\
  exists imageData',
    (p <- pixelData 2 2 {| r := Some 255; g := Some 0; b := Some 0 |} ;;
     imageData 2 2 p) = Ok imageData' /\
    imageData' = concat (replicate (Z.to_nat 2)
                           (0 :: concat (replicate (Z.to_nat 2) [255; 0; 0]))) /\
    Buf.len imageData' = 2 * (1 + 2 * 3).
Proof.
  assert (H : valid_dimension 2) by (unfold valid_dimension; lia).
  assert (H255 : is_byte 255) by (unfold is_byte; lia).
  assert (H0 : is_byte 0) by (unfold is_byte; lia).
  split; [exact H|]. split; [exact H255|]. split; [exact H0|].
  exact (scanline_buffer_layout 2 2 255 0 0 H H H255 H0 H0).
Defined.

(** C9, as the claim states it: generatePNG would have to fail on a width
    or height outside 1..4096.  It has no check of its own: for width 0 it
    returns a file whose header declares the width 0, and for width 4097 it
    returns a file as well. *)
Lemma generatePNG_does_not_validate :
  ~ valid_dimension 0 /\ ~ valid_dimension 4097 /\
  generatePNG 0 1 "#ff0000"
  = Ok (signature ++ make_chunk "IHDR" (header_payload 0 1)
        ++ make_chunk "IDAT" (stream [[0]] [0]) ++ make_chunk "IEND" []) /\
  generatePNG 4097 1 "#000000"
  = Ok (signature ++ make_chunk "IHDR" (header_payload 4097 1)
        ++ make_chunk "IDAT"
             (stream (split_blocks (scanlines 4097 1 0 0 0)) (scanlines 4097 1 0 0 0))
        ++ make_chunk "IEND" []).
Proof.
  split; [unfold valid_dimension; lia|]. split; [unfold valid_dimension; lia|].
  split; [vm_compute; reflexivity|].
  exact generatePNG_width_4097.
Qed.

(** C9, amended: the bound is checked by the validation of the handler
    alone.  When the width or the height of a request is not a finite number
    above 0 and at most 4096, handleGenerateImage throws InvalidParams
    before generatePNG is called, so before any byte is produced. *)
Theorem handler_rejects_bad_dimensions (args : jsval) :
  ~ accepted_dimension (prop args "width") \/ ~ accepted_dimension (prop args "height") ->
  handleGenerateImage args = McpError InvalidParams.
Proof.
  intros Hbad. unfold handleGenerateImage.
  destruct (isValidGenerateImageArgs args) eqn:E; [|reflexivity].
  apply isValidGenerateImageArgs_dimensions in E as [Hw Hh].
  destruct Hbad as [Hbad|Hbad]; contradiction.
Qed.

Lemma handler_rejects_bad_dimensions_witness :
  handleGenerateImage
    (JObject [("width", JNumber (Finite 4097)); ("height", JNumber (Finite 1));
              ("color", JString "#ff0000"); ("filepath", JString "out.png")])
  = McpError InvalidParams.
Proof.
  apply handler_rejects_bad_dimensions. left.
  intros (q & E & _ & Hle). simpl in E.
  assert (Hq : q = 4097%Q) by congruence. subst q.
  vm_compute in Hle. apply Hle. reflexivity.
Defined.



(** * Further properties of the code *)

(** ** The handler *)

Section Handler.

Lemma typeof_number v :
  jstype_eqb (typeof v) TNumber = true <-> exists n, v = JNumber n.
Proof.
  split.
  - destruct v; try discriminate. eauto.
  - intros [n ->]. reflexivity.
Qed.

Lemma typeof_string v :
  jstype_eqb (typeof v) TString = true <-> exists s, v = JString s.
Proof.
  split.
  - destruct v; try discriminate. eauto.
  - intros [s ->]. reflexivity.
Qed.

Lemma accepted_dimension_checks v :
  accepted_dimension v ->
  jstype_eqb (typeof v) TNumber = true /\ gt_0 v = true /\ le_4096 v = true.
Proof.
  intros (q & -> & Hgt & Hle).
  destruct (accepted_checks q Hgt Hle). auto.
Qed.

Lemma isValidGenerateImageArgs_iff args :
  isValidGenerateImageArgs args = true <->
  (exists fields, args = JObject fields) /\
  accepted_dimension (prop args "width") /\
  accepted_dimension (prop args "height") /\
  (exists color, prop args "color" = JString color) /\
  (exists filepath, prop args "filepath" = JString filepath).
Proof.
  split.
  - intros H. pose proof (isValidGenerateImageArgs_dimensions args H) as [Hw Hh].
    unfold isValidGenerateImageArgs in H.
    apply andb_prop in H as [H _]. apply andb_prop in H as [H _].
    apply andb_prop in H as [H _]. apply andb_prop in H as [H _].
    apply andb_prop in H as [H Tf]. apply andb_prop in H as [H Tc].
    apply andb_prop in H as [H _]. apply andb_prop in H as [H Tw].
    apply andb_prop in H as [To Tn].
    split; [|split; [exact Hw|split; [exact Hh|split; now apply typeof_string]]].
    destruct args; try discriminate; eauto.
  - intros ([fields ->] & Hw & Hh & Hc & Hf).
    apply accepted_dimension_checks in Hw as (Tw & Gw & Lw).
    apply accepted_dimension_checks in Hh as (Th & Gh & Lh).
    apply typeof_string in Hc, Hf.
    unfold isValidGenerateImageArgs.
    rewrite Tw, Th, Hc, Hf, Gw, Gh, Lw, Lh. reflexivity.
Qed.

(** The requests that the handler passes on. *)
Lemma handleGenerateImage_accepts args :
  (exists fields, args = JObject fields) ->
  accepted_dimension (prop args "width") ->
  accepted_dimension (prop args "height") ->
  (exists s, prop args "color" = JString s /\ isValidColor s = true) ->
  (exists s, prop args "filepath" = JString s) ->
  handleGenerateImage args
  = Generate (prop args "width") (prop args "height")
      (prop args "color") (prop args "filepath").
Proof.
  intros Ho Hw Hh (c & Hc & Ec) Hf. unfold handleGenerateImage.
  assert (E : isValidGenerateImageArgs args = true).
  { apply isValidGenerateImageArgs_iff. repeat split; eauto. }
  rewrite E. cbn [negb]. rewrite Hc. cbn [as_string]. rewrite Ec. reflexivity.
Qed.

End Handler.

(** X1: handleGenerateImage goes on to generatePNG exactly for the requests
    that are an object (not null, not an array) with a width and a height
    that are finite numbers above 0 and at most 4096, a color that is a
    string accepted by isValidColor and a filepath that is a string; the
    values it passes on are these four properties.  Every other request is
    refused with InvalidParams. *)
Theorem handleGenerateImage_accepts_iff (args : jsval) :
  (accepted_request args /\
   handleGenerateImage args
   = Generate (prop args "width") (prop args "height")
       (prop args "color") (prop args "filepath")) \/
  (~ accepted_request args /\ handleGenerateImage args = McpError InvalidParams).
Proof.
  unfold handleGenerateImage.
  destruct (isValidGenerateImageArgs args) eqn:E; cbn [negb].
  - apply isValidGenerateImageArgs_iff in E as (Ho & Hw & Hh & [c Hc] & Hf).
    rewrite Hc. cbn [as_string].
    destruct (isValidColor c) eqn:Ec; cbn [negb]; [left|right].
    + split; [|reflexivity]. repeat split; eauto.
    + split; [|reflexivity]. intros (_ & _ & _ & (s & Hs & Es) & _).
      rewrite Hc in Hs. congruence.
  - right. split; [|reflexivity]. intros (Ho & Hw & Hh & (s & Hs & _) & Hf).
    assert (isValidGenerateImageArgs args = true); [|congruence].
    apply isValidGenerateImageArgs_iff. repeat split; eauto.
Qed.

(** X2: every request for the tool whose arguments satisfy the advertised
    inputSchema is passed on to generatePNG with its four properties,
    whatever other properties the object has; a request for any other tool
    name is refused with MethodNotFound whatever its arguments.  The
    validation is weaker than the schema: a width of 0.5, below the minimum 1
    of the schema, is passed on as well. *)
Theorem callTool_schema (name : string) (args : jsval) :
  (name <> "generate_test_image"%string -> callTool name args = McpError MethodNotFound) /\
  (inputSchema args ->
   callTool "generate_test_image" args
   = Generate (prop args "width") (prop args "height")
       (prop args "color") (prop args "filepath")) /\
  (let small := JObject [("width", JNumber (Finite (1 # 2))); ("height", JNumber (Finite 1));
                         ("color", JString "#fff"); ("filepath", JString "a.png")] in
   ~ inputSchema small /\
   callTool "generate_test_image" small
   = Generate (JNumber (Finite (1 # 2))) (JNumber (Finite 1)) (JString "#fff") (JString "a.png")).
Proof.
  split; [|split].
  - intros Hne. unfold callTool.
    destruct (String.eqb_spec name "generate_test_image"); [contradiction|reflexivity].
  - intros (Ho & (qw & Ew & Hw0 & Hw1) & (qh & Eh & Hh0 & Hh1) & Hc & Hf).
    unfold callTool. cbn [String.eqb Ascii.eqb Bool.eqb].
    apply handleGenerateImage_accepts; try assumption.
    + exists qw. split; [exact Ew|]. split; [|exact Hw1].
      apply Qlt_le_trans with 1%Q; [reflexivity|exact Hw0].
    + exists qh. split; [exact Eh|]. split; [|exact Hh1].
      apply Qlt_le_trans with 1%Q; [reflexivity|exact Hh0].
  - cbv zeta. split; [|reflexivity].
    intros (_ & (q & E & Hq & _) & _). cbn in E.
    assert (q = (1 # 2)%Q) by congruence. subst q.
    vm_compute in Hq. apply Hq. reflexivity.
Qed.

Lemma callTool_schema_witness :
  callTool "generate_test_image"
    (JObject [("width", JNumber (Finite 640)); ("height", JNumber (Finite 480));
              ("color", JString "#336699"); ("filepath", JString "/tmp/a.png");
              ("label", JString "ignored")])
  = Generate (JNumber (Finite 640)) (JNumber (Finite 480))
      (JString "#336699") (JString "/tmp/a.png").
Proof.
  set (args := JObject [("width", JNumber (Finite 640)); ("height", JNumber (Finite 480));
                        ("color", JString "#336699"); ("filepath", JString "/tmp/a.png");
                        ("label", JString "ignored")]).
  assert (Hs : inputSchema args).
  { split; [eexists; reflexivity|].
    split; [exists 640%Q; split; [reflexivity|split; vm_compute; congruence]|].
    split; [exists 480%Q; split; [reflexivity|split; vm_compute; congruence]|].
    split; eexists; [split|]; reflexivity. }
  exact (proj1 (proj2 (callTool_schema "generate_test_image" args)) Hs).
Defined.

Section IntegerRequests.

Lemma accepted_integer n :
  valid_dimension n -> accepted_dimension (JNumber (Finite (inject_Z n))).
Proof.
  unfold valid_dimension. intros Hn. exists (inject_Z n).
  split; [reflexivity|]. unfold Qlt, Qle. simpl. lia.
Qed.

End IntegerRequests.

(** X3: a request with integer width and height in 1..4096, a valid colour
    and a file path is passed on by the validation; the try block then
    either creates the directory of the path and writes one file, at the
    path, that is the signature and the header, data and end chunks (and
    answers with the success text unless the write fails), or, when the
    Adler-32 sum b of the scanline buffer is 2^15 or more, touches no file
    and fails with InternalError. *)
Theorem request_end_to_end (dirname : string -> string) (write_throws : bool)
    (args : jsval) (width height : Z) (color filepath : string) :
  (exists fields, args = JObject fields) ->
  prop args "width" = JNumber (Finite (inject_Z width)) ->
  prop args "height" = JNumber (Finite (inject_Z height)) ->
  prop args "color" = JString color ->
  prop args "filepath" = JString filepath ->
  valid_dimension width -> valid_dimension height -> isValidColor color = true ->
  handleGenerateImage args
  = Generate (JNumber (Finite (inject_Z width))) (JNumber (Finite (inject_Z height)))
      (JString color) (JString filepath) /\
  exists cr cg cb,
    hexToRgb color = {| r := Some cr; g := Some cg; b := Some cb |} /\
    let buffer := scanlines (Z.to_nat width) (Z.to_nat height) cr cg cb in
    tryBlock dirname write_throws width height color filepath
    = if snd (adler32_sums buffer) <? 2 ^ 15
      then ([MkdirSync (dirname filepath);
             WriteFileSync filepath
               (signature ++ make_chunk "IHDR" (header_payload width height)
                ++ make_chunk "IDAT" (stream (split_blocks buffer) buffer)
                ++ make_chunk "IEND" [])],
            if write_throws then Failure InternalError
            else Content ("Successfully generated and saved test image: "
                          +:+ pretty width +:+ "x" +:+ pretty height
                          +:+ " pixels with color " +:+ color +:+ " to " +:+ filepath))
      else ([], Failure InternalError).
Proof.
  intros Ho Ew Eh Ec Ef Hw Hh Hc. split.
  - rewrite <- Ew, <- Eh, <- Ec, <- Ef. apply handleGenerateImage_accepts.
    + exact Ho.
    + rewrite Ew. now apply accepted_integer.
    + rewrite Eh. now apply accepted_integer.
    + exists color. split; assumption.
    + exists filepath. assumption.
  - destruct (hexToRgb_valid color Hc) as (cr & cg & cb & Hr & Hg & Hb & Hrgb).
    exists cr, cg, cb. split; [exact Hrgb|]. intros buffer.
    unfold valid_dimension in Hw, Hh.
    assert (Hspec := generatePNG_spec width height color
                       ltac:(lia) ltac:(lia) ltac:(nia)).
    rewrite Hrgb in Hspec. cbn [r g b JS.to_uint8] in Hspec.
    unfold is_byte in Hr, Hg, Hb. rewrite !Z.mod_small in Hspec by lia.
    fold buffer in Hspec. unfold tryBlock. rewrite Hspec.
    assert (Hbytes : Forall is_byte buffer)
      by (apply scanlines_bytes; unfold is_byte; lia).
    rewrite (adler32_sign buffer Hbytes).
    destruct (snd (adler32_sums buffer) <? 2 ^ 15); [|reflexivity].
    destruct write_throws; reflexivity.
Qed.

Lemma request_end_to_end_witness :
  handleGenerateImage
    (JObject [("width", JNumber (Finite (inject_Z 2))); ("height", JNumber (Finite (inject_Z 2)));
              ("color", JString "#ff0000"); ("filepath", JString "/tmp/a.png")])
  = Generate (JNumber (Finite (inject_Z 2))) (JNumber (Finite (inject_Z 2)))
      (JString "#ff0000") (JString "/tmp/a.png").
Proof.
  set (args := JObject [("width", JNumber (Finite (inject_Z 2)));
                        ("height", JNumber (Finite (inject_Z 2)));
                        ("color", JString "#ff0000"); ("filepath", JString "/tmp/a.png")]).
  assert (H : valid_dimension 2) by (unfold valid_dimension; lia).
  assert (Ho : exists fields, args = JObject fields) by (eexists; reflexivity).
  exact (proj1 (request_end_to_end (fun _ => "/tmp"%string) false args 2 2
                  "#ff0000" "/tmp/a.png" Ho eq_refl eq_refl eq_refl eq_refl H H eq_refl)).
Defined.

(** ** Colours *)

Section ColourNotation.

Lemma remove_hash_digits s : all_hex s = true -> remove_hash s = s.
Proof.
  induction s as [|ch s IH]; [reflexivity|].
  simpl. intros H. apply andb_prop in H as [Hc Hs].
  destruct (Ascii.eqb_spec ch "#") as [->|_]; [discriminate Hc|].
  now rewrite IH.
Qed.

End ColourNotation.

(** X4: a colour that isValidColor accepts is read by hexToRgb without any
    NaN: written with six digits, each channel is 16 times its first digit
    plus its second; written with three digits, each channel is 17 times its
    digit; every channel is between 0 and 255. *)
Theorem hexToRgb_of_valid (color : string) :
  isValidColor color = true ->
  exists cr cg cb,
    hexToRgb color = {| r := Some cr; g := Some cg; b := Some cb |} /\
    is_byte cr /\ is_byte cg /\ is_byte cb /\
    ((exists d0 d1 d2,
        color = String "#" (String d0 (String d1 (String d2 EmptyString))) /\
        cr = 17 * hex_digit_value d0 /\ cg = 17 * hex_digit_value d1 /\
        cb = 17 * hex_digit_value d2) \/
     (exists d0 d1 d2 d3 d4 d5,
        color = String "#" (String d0 (String d1 (String d2
                  (String d3 (String d4 (String d5 EmptyString)))))) /\
        cr = 16 * hex_digit_value d0 + hex_digit_value d1 /\
        cg = 16 * hex_digit_value d2 + hex_digit_value d3 /\
        cb = 16 * hex_digit_value d4 + hex_digit_value d5)).
Proof.
  intros H. apply isValidColor_shape in H as (digits & -> & Hhex & Hlen).
  unfold hexToRgb. change (remove_hash (String "#" digits)) with digits.
  destruct digits as [|d0 [|d1 [|d2 [|d3 [|d4 [|d5 [|d6 rest]]]]]]];
    simpl in Hlen; try (exfalso; lia); simpl in Hhex;
    repeat (apply andb_prop in Hhex as [? Hhex]);
    cbn [String.substring]; rewrite !parseInt16_two by assumption.
  - exists (17 * hex_digit_value d0), (17 * hex_digit_value d1), (17 * hex_digit_value d2).
    pose proof (hex_digit_value_range d0 H). pose proof (hex_digit_value_range d1 H0).
    pose proof (hex_digit_value_range d2 H1).
    split; [do 3 f_equal; f_equal; lia|].
    unfold is_byte. repeat split; try lia.
    left. exists d0, d1, d2. repeat split; reflexivity.
  - eexists _, _, _. split; [reflexivity|].
    split; [now apply two_digits_byte|]. split; [now apply two_digits_byte|].
    split; [now apply two_digits_byte|].
    right. exists d0, d1, d2, d3, d4, d5. repeat split; reflexivity.
Qed.

Lemma hexToRgb_of_valid_witness :
  exists cr cg cb,
    hexToRgb "#F0a" = {| r := Some cr; g := Some cg; b := Some cb |} /\
    is_byte cr /\ is_byte cg /\ is_byte cb.
Proof.
  destruct (hexToRgb_of_valid "#F0a" eq_refl) as (cr & cg & cb & H & Hr & Hg & Hb & _).
  exists cr, cg, cb. auto.
Defined.

(** X5: hexToRgb reads a colour the same with or without the leading
    marker, and a three-character colour the same as the six-character
    colour that doubles each character; generatePNG, which sees the colour
    through hexToRgb only, returns the same for both spellings. *)
Theorem hexToRgb_notation (digits : string) (c0 c1 c2 : ascii) (width height : Z) :
  all_hex digits = true ->
  hexToRgb (String "#" digits) = hexToRgb digits /\
  hexToRgb (String "#" (String c0 (String c1 (String c2 EmptyString))))
  = hexToRgb (String "#" (String c0 (String c0 (String c1 (String c1
                (String c2 (String c2 EmptyString))))))) /\
  generatePNG width height (String "#" digits) = generatePNG width height digits /\
  generatePNG width height (String "#" (String c0 (String c1 (String c2 EmptyString))))
  = generatePNG width height
      (String "#" (String c0 (String c0 (String c1 (String c1
         (String c2 (String c2 EmptyString))))))).
Proof.
  intros Hd.
  assert (E1 : hexToRgb (String "#" digits) = hexToRgb digits).
  { unfold hexToRgb. change (remove_hash (String "#" digits)) with digits.
    now rewrite remove_hash_digits. }
  assert (E2 : hexToRgb (String "#" (String c0 (String c1 (String c2 EmptyString))))
               = hexToRgb (String "#" (String c0 (String c0 (String c1 (String c1
                             (String c2 (String c2 EmptyString)))))))) by reflexivity.
  split; [exact E1|]. split; [exact E2|].
  unfold generatePNG. now rewrite E1, E2.
Qed.

Lemma hexToRgb_notation_witness :
  hexToRgb "#00ff7f" = hexToRgb "00ff7f".
Proof.
  exact (proj1 (hexToRgb_notation "00ff7f" "a" "b" "c" 1 1 eq_refl)).
Defined.

(** ** The stream *)

Section BlockShape.

Lemma chunk_at_length data k :
  (k < block_count (length data))%nat ->
  Z.of_nat (length (chunk_at data k))
  = Z.min 65535 (Z.of_nat (length data) - 65535 * Z.of_nat k).
Proof.
  intros Hk. pose proof (block_count_bounds (length data)) as HN.
  pose proof block_size_eq as Hbs.
  unfold chunk_at. rewrite length_take, length_drop. nia.
Qed.

Lemma split_blocks_lookup data k chunk :
  split_blocks data !! k = Some chunk ->
  (k < block_count (length data))%nat /\ chunk = chunk_at data k.
Proof.
  unfold split_blocks. rewrite list_lookup_fmap. intros H.
  destruct (seq 0 (block_count (length data)) !! k) as [j|] eqn:E; [|discriminate].
  apply lookup_seq in E as [-> Hk]. simpl in H. split; [exact Hk|congruence].
Qed.

End BlockShape.

(** X6: on every sequence of bytes deflateData either returns the stream
    (the header 0x78 0x01, the stored blocks of the consecutive chunks of
    the input, the big-endian Adler-32 of the input) or throws a RangeError,
    and it throws exactly when the Adler-32 sum b of the input is 2^15 or
    more. *)
Theorem deflateData_succeeds_iff (data : list Z) :
  Forall is_byte data ->
  (snd (adler32_sums data) < 2 ^ 15 /\
   deflateData data
   = Ok ([0x78; 0x01] ++ stored_blocks (split_blocks data) ++ be32 (adler32_spec data))) \/
  (2 ^ 15 <= snd (adler32_sums data) /\ deflateData data = Throw RangeError).
Proof.
  intros H. rewrite deflateData_spec, adler32_sign by exact H.
  destruct (Z.ltb_spec (snd (adler32_sums data)) (2 ^ 15)); [left|right]; auto.
Qed.

Lemma deflateData_succeeds_iff_witness :
  (snd (adler32_sums [1; 2; 3]) < 2 ^ 15 /\
   deflateData [1; 2; 3]
   = Ok ([0x78; 0x01] ++ stored_blocks (split_blocks [1; 2; 3])
         ++ be32 (adler32_spec [1; 2; 3]))) \/
  (2 ^ 15 <= snd (adler32_sums [1; 2; 3]) /\ deflateData [1; 2; 3] = Throw RangeError).
Proof.
  apply deflateData_succeeds_iff.
  repeat (constructor 2; [unfold is_byte; lia|]). constructor 1.
Defined.

Section BlockLoop.

Variable data : list Z.

(** What one iteration of the loop pushes for chunk k of n: the block
    header, the length bytes and the chunk. *)
Lemma deflate_block_pushes k blocks :
  (k < block_count (length data))%nat ->
  deflate_block data (65535 * Z.of_nat k) blocks
  = Ok (blocks ++ [[if (Z.of_nat k + 1 =? Z.of_nat (block_count (length data))) then 1 else 0];
                   le16 (Buf.len (chunk_at data k))
                   ++ le16 (0xFFFF - Buf.len (chunk_at data k));
                   chunk_at data k]).
Proof.
  intros Hk. unfold deflate_block.
  pose proof (block_count_bounds (length data)) as HN.
  pose proof block_size_eq as Hbs.
  set (N := block_count (length data)) in *.
  set (i := 65535 * Z.of_nat k).
  assert (Hi : i < Buf.len data) by (unfold i, Buf.len; lia).
  assert (Hsub : Buf.subarray data i (Z.min (i + maxBlockSize) (Buf.len data))
                 = chunk_at data k).
  { unfold Buf.subarray, chunk_at, maxBlockSize.
    replace (Z.to_nat i) with (k * block_size)%nat by (unfold i; nia).
    set (rest := drop (k * block_size) data).
    assert (Hrest : Z.of_nat (length rest) = Buf.len data - i).
    { unfold rest, Buf.len, i. rewrite length_drop. nia. }
    destruct (Z.min_spec (i + 65535) (Buf.len data)) as [[Hlt ->]|[Hge ->]].
    - f_equal. lia.
    - rewrite !take_ge by lia. reflexivity. }
  rewrite Hsub.
  assert (Hlen : 0 <= Buf.len (chunk_at data k) <= 65535).
  { pose proof (chunk_at_bound data k). unfold Buf.len. lia. }
  rewrite lengthBytes_ok by exact Hlen.
  assert (Hflag : (i + maxBlockSize >=? Buf.len data) = (Z.of_nat k + 1 =? Z.of_nat N)).
  { unfold maxBlockSize, i.
    destruct (Z.eqb_spec (Z.of_nat k + 1) (Z.of_nat N)) as [E|E].
    - apply Z.geb_le. unfold Buf.len. lia.
    - rewrite Z.geb_leb. apply Z.leb_gt. unfold Buf.len. lia. }
  rewrite Hflag.
  destruct (Z.of_nat k + 1 =? Z.of_nat N); reflexivity.
Qed.


(** The loop: the list of buffers that it has pushed when it ends. *)
Lemma deflate_blocks_pushes :
  deflate_blocks data
  = Ok (concat (map (fun k =>
                       [[if (Z.of_nat k + 1 =? Z.of_nat (block_count (length data)))
                         then 1 else 0];
                        le16 (Buf.len (chunk_at data k))
                        ++ le16 (0xFFFF - Buf.len (chunk_at data k));
                        chunk_at data k])
                  (seq 0 (block_count (length data))))).
Proof.
  unfold deflate_blocks.
  pose proof (block_count_bounds (length data)) as HN.
  set (N := block_count (length data)) in *.
  set (pushed := fun k : nat => [[if (Z.of_nat k + 1 =? Z.of_nat N) then 1 else 0];
                        le16 (Buf.len (chunk_at data k))
                        ++ le16 (0xFFFF - Buf.len (chunk_at data k));
                        chunk_at data k]).
  set (Inv := fun (j : Z) (blocks : list (list Z)) =>
                exists m : nat, j = 65535 * Z.of_nat m /\ (m <= N)%nat /\
                  blocks = concat (map pushed (seq 0 m))).
  assert (Hbody : forall j blocks, Inv j blocks -> j < Buf.len data ->
                    exists blocks', deflate_block data j blocks = Ok blocks' /\
                                    Inv (j + maxBlockSize) blocks').
  { intros j blocks (m & -> & Hm & Hb) Hlt.
    assert (Hm' : (m < N)%nat) by (unfold Buf.len in Hlt; lia).
    rewrite (deflate_block_pushes m blocks Hm').
    eexists. split; [reflexivity|].
    exists (Datatypes.S m). split; [unfold maxBlockSize; lia|]. split; [lia|].
    rewrite Hb, seq_S, map_app, concat_app. cbn [map concat Nat.add].
    now rewrite app_nil_r. }
  assert (Hinit : Inv 0 []).
  { exists 0%nat. split; [lia|]. split; [lia|]. reflexivity. }
  destruct (for_loop_rule Inv (Buf.len data) maxBlockSize (deflate_block data) Hbody
              (length data) 0 _ Hinit)
    as (j & blocks & Hrun & (m & Hj & Hm & Hb) & Hstop).
  { unfold Buf.len, maxBlockSize. lia. }
  rewrite Hrun. f_equal.
  assert (m = N) by (unfold Buf.len in Hstop; lia). subst m. exact Hb.
Qed.

End BlockLoop.

Lemma imap_map_seq {A B} (f : nat -> A -> B) (g : nat -> A) n :
  imap f (map g (seq 0 n)) = map (fun k => f k (g k)) (seq 0 n).
Proof.
  induction n as [|n IH]; [reflexivity|].
  rewrite seq_S, !map_app, imap_app, IH. cbn [map imap Nat.add].
  rewrite length_map, length_seq, Nat.add_0_r. reflexivity.
Qed.

(** X7: the loop of deflateData cuts the input at every multiple of 65535
    and pushes, for each chunk, the block header (1 for the last chunk, 0
    for the others), the four length bytes and the chunk.  Put together the
    chunks are the input, there are as many as the length divided by 65535,
    rounded up, every chunk before the last has exactly 65535 bytes, and the
    last has the remaining 1 to 65535 bytes, so no chunk is empty. *)
Theorem split_blocks_shape (data : list Z) :
  let n := Z.of_nat (length data) in
  let chunks := split_blocks data in
  let count := Z.of_nat (length chunks) in
  deflate_blocks data
  = Ok (concat (imap (fun k chunk =>
                        [[if Z.of_nat k + 1 =? count then 1 else 0];
                         le16 (Buf.len chunk) ++ le16 (0xFFFF - Buf.len chunk);
                         chunk])
                  chunks)) /\
  concat chunks = data /\
  count = (n + 65534) / 65535 /\
  forall k chunk,
    chunks !! k = Some chunk ->
    (Z.of_nat k + 1 < count -> Buf.len chunk = 65535) /\
    (Z.of_nat k + 1 = count ->
     Buf.len chunk = n - 65535 * Z.of_nat k /\ 1 <= Buf.len chunk <= 65535).
Proof.
  intros n chunks count. subst n chunks count. rewrite split_blocks_length.
  pose proof (block_count_bounds (length data)) as HN.
  split; [|split; [apply concat_split_blocks|split]].
  - rewrite deflate_blocks_pushes. unfold split_blocks.
    now rewrite imap_map_seq.
  - unfold block_count. rewrite Z2Nat.id; [reflexivity|].
    apply Z.div_pos; lia.
  - intros k chunk Hk. apply split_blocks_lookup in Hk as [Hk ->].
    unfold Buf.len. rewrite chunk_at_length by exact Hk. lia.
Qed.

Lemma split_blocks_shape_witness :
  deflate_blocks [1; 2; 3] = Ok [[1]; [3; 0; 252; 255]; [1; 2; 3]] /\
  Buf.len [1; 2; 3] = Z.of_nat (length [1; 2; 3]) - 65535 * Z.of_nat 0 /\
  1 <= Buf.len [1; 2; 3] <= 65535.
Proof.
  destruct (split_blocks_shape [1; 2; 3]) as (Hloop & _ & _ & H).
  split; [rewrite Hloop; vm_compute; reflexivity|].
  assert (E : split_blocks [1; 2; 3] !! 0%nat = Some [1; 2; 3])
    by (vm_compute; reflexivity).
  apply (proj2 (H 0%nat [1; 2; 3] E)). vm_compute. reflexivity.
Defined.

(** X8: adler32 returns the int32 reading of the Adler-32 word: read as an
    unsigned 32-bit number (what [>>> 0] would return) its result is
    (b << 16) | a on every sequence of bytes, it equals that word when it is
    not negative, and it is negative exactly when b is 2^15 or more. *)
Theorem adler32_unsigned_reading (data : list Z) :
  Forall is_byte data ->
  JS.ushr (adler32 data) 0 = adler32_spec data /\
  (0 <= adler32 data -> adler32 data = adler32_spec data) /\
  (adler32 data < 0 <-> 2 ^ 15 <= snd (adler32_sums data)).
Proof.
  intros H. split; [|split].
  - unfold JS.ushr. change (0 mod 32) with 0. rewrite Z.shiftr_0_r.
    rewrite adler32_signed, to_uint32_to_int32 by exact H.
    apply to_uint32_small, adler32_spec_range, H.
  - now apply adler32_nonneg.
  - pose proof (adler32_sign data H) as Hs.
    destruct (Z.leb_spec 0 (adler32 data));
      destruct (Z.ltb_spec (snd (adler32_sums data)) (2 ^ 15));
      try discriminate; lia.
Qed.

Lemma adler32_unsigned_reading_witness :
  JS.ushr (adler32 (replicate 16 255)) 0 = adler32_spec (replicate 16 255).
Proof.
  refine (proj1 (adler32_unsigned_reading (replicate 16 255) _)).
  repeat (constructor 2; [unfold is_byte; lia|]). constructor 1.
Defined.

(** ** The file *)

Section FileFacts.

Lemma make_chunk_length tag payload :
  Buf.len (make_chunk tag payload)
  = 8 + Z.of_nat (String.length tag) + Buf.len payload.
Proof.
  unfold make_chunk. rewrite !len_app.
  assert (Hb : forall v, Buf.len (be32 v) = 4) by reflexivity.
  rewrite !Hb.
  assert (Hs : forall s, Buf.len (Buf.from_string s) = Z.of_nat (String.length s)).
  { intros s. unfold Buf.len. f_equal.
    induction s as [|ch s IH]; simpl; [reflexivity|now rewrite IH]. }
  rewrite Hs. lia.
Qed.

Lemma make_chunk_bytes tag payload :
  Forall is_byte payload -> Forall is_byte (make_chunk tag payload).
Proof.
  intros H. unfold make_chunk.
  repeat (apply Forall_app; split);
    auto using be32_bytes, from_string_bytes.
Qed.

Lemma header_payload_bytes width height : Forall is_byte (header_payload width height).
Proof.
  unfold header_payload.
  repeat (apply Forall_app; split); try apply be32_bytes.
  repeat (constructor 2; [unfold is_byte; lia|]). constructor 1.
Qed.

Lemma signature_bytes : Forall is_byte signature.
Proof.
  unfold signature, Buf.from_array. apply Forall_forall. intros x Hx.
  apply list_elem_of_fmap in Hx as (y & -> & _). apply Z.mod_pos_bound. lia.
Qed.

Lemma writeUInt32BE_range buf v offset :
  ~ 0 <= v <= 0xFFFFFFFF -> Buf.writeUInt32BE buf v offset = Throw RangeError.
Proof.
  intros Hv. unfold Buf.writeUInt32BE, Buf.check.
  destruct (Z.leb_spec 0 v); [|reflexivity].
  destruct (Z.leb_spec v 0xFFFFFFFF); [lia|reflexivity].
Qed.

(** idat returns the chunk or throws a RangeError. *)
Lemma idat_cases compressedData :
  idat compressedData = Ok (make_chunk "IDAT" compressedData) \/
  idat compressedData = Throw RangeError.
Proof.
  destruct (Z.le_gt_cases (Buf.len compressedData) 0xFFFFFFFF) as [Hle|Hgt].
  - left. now apply idat_spec.
  - right. unfold idat. rewrite alloc_4. cbn [bind].
    rewrite writeUInt32BE_range by lia. reflexivity.
Qed.

Lemma alloc_throws n :
  ~ 0 <= n <= Buf.kMaxLength -> Buf.alloc n = Throw RangeError.
Proof.
  intros Hn. unfold Buf.alloc.
  destruct (Z.leb_spec 0 n); [|reflexivity].
  destruct (Z.leb_spec n Buf.kMaxLength); [lia|reflexivity].
Qed.

End FileFacts.

(** X9: for valid width, height and colour, a file that generatePNG returns
    has 63 + 5 * blocks + n bytes, where n = height * (1 + 3 * width) is the
    size of the scanline buffer and blocks is n / 65535 rounded up, and each
    of its elements is a byte. *)
Theorem generatePNG_file_size (width height : Z) (color : string) (out : list Z) :
  valid_dimension width -> valid_dimension height -> isValidColor color = true ->
  generatePNG width height color = Ok out ->
  let n := height * (1 + 3 * width) in
  Buf.len out = 63 + 5 * ((n + 65534) / 65535) + n /\
  Forall is_byte out.
Proof.
  intros Hw Hh _. unfold valid_dimension in Hw, Hh.
  rewrite generatePNG_spec by nia.
  set (buffer := scanlines _ _ _ _ _).
  destruct (0 <=? adler32 buffer); [|discriminate].
  intros Hout n. apply Ok_inj in Hout. subst out.
  assert (Hbytes : Forall is_byte buffer)
    by (apply scanlines_bytes; apply to_uint8_byte).
  assert (Hlen : Buf.len buffer = n).
  { unfold Buf.len, buffer, n. rewrite scanlines_length. nia. }
  split.
  - rewrite !len_app, !make_chunk_length, stream_length, header_payload_length.
    rewrite Hlen. unfold block_count.
    replace (Z.of_nat (length buffer)) with n by exact (eq_sym Hlen).
    rewrite Z2Nat.id by (apply Z.div_pos; unfold n; nia).
    change (Buf.len signature) with 8. change (Buf.len []) with 0.
    change (Z.of_nat (String.length "IHDR")) with 4.
    change (Z.of_nat (String.length "IDAT")) with 4.
    change (Z.of_nat (String.length "IEND")) with 4. lia.
  - apply Forall_app; split; [apply signature_bytes|].
    apply Forall_app; split; [apply make_chunk_bytes, header_payload_bytes|].
    apply Forall_app; split; [apply make_chunk_bytes, stream_bytes, Hbytes|].
    apply make_chunk_bytes. constructor 1.
Qed.

Lemma generatePNG_file_size_witness :
  let out := signature ++ make_chunk "IHDR" (header_payload 2 2)
             ++ make_chunk "IDAT"
                  (stream (split_blocks (scanlines 2 2 255 0 0)) (scanlines 2 2 255 0 0))
             ++ make_chunk "IEND" [] in
  generatePNG 2 2 "#ff0000" = Ok out /\ Buf.len out = 82.
Proof.
  intros out.
  assert (H : valid_dimension 2) by (unfold valid_dimension; lia).
  assert (E : generatePNG 2 2 "#ff0000" = Ok out) by (vm_compute; reflexivity).
  split; [exact E|].
  exact (proj1 (generatePNG_file_size 2 2 "#ff0000" out H H eq_refl E)).
Defined.

(** X10: generatePNG either returns a file or throws a RangeError, on all
    integers and every colour string: its loops never run out of
    iterations.  It throws the RangeError whenever the width or the height
    is negative or above 2^32 - 1, which writeUInt32BE refuses. *)
Theorem generatePNG_throws_only_RangeError (width height : Z) (color : string) :
  ((exists out, generatePNG width height color = Ok out) \/
   generatePNG width height color = Throw RangeError) /\
  (~ (0 <= width <= 0xFFFFFFFF /\ 0 <= height <= 0xFFFFFFFF) ->
   generatePNG width height color = Throw RangeError).
Proof.
  assert (Hbad : ~ (0 <= width <= 0xFFFFFFFF /\ 0 <= height <= 0xFFFFFFFF) ->
                 generatePNG width height color = Throw RangeError).
  { intros Hr. unfold generatePNG, ihdrData.
    change (Buf.alloc 13) with (Ok (0 :: 0 :: 0 :: 0 :: replicate 9 0)). cbn [bind].
    destruct (Z.le_gt_cases 0 width) as [Hw0|Hw0];
      [destruct (Z.le_gt_cases width 0xFFFFFFFF) as [Hw1|Hw1]|].
    - rewrite writeUInt32BE_start by lia. cbn [bind].
      rewrite writeUInt32BE_range by lia. reflexivity.
    - rewrite writeUInt32BE_range by lia. reflexivity.
    - rewrite writeUInt32BE_range by lia. reflexivity. }
  split; [|exact Hbad].
  destruct (Z.le_gt_cases 0 width) as [Hw0|Hw0]; [|right; apply Hbad; lia].
  destruct (Z.le_gt_cases width 0xFFFFFFFF) as [Hw1|Hw1]; [|right; apply Hbad; lia].
  destruct (Z.le_gt_cases 0 height) as [Hh0|Hh0]; [|right; apply Hbad; lia].
  destruct (Z.le_gt_cases height 0xFFFFFFFF) as [Hh1|Hh1]; [|right; apply Hbad; lia].
  unfold generatePNG.
  rewrite ihdrData_spec by lia. cbn [bind].
  rewrite ihdr_spec by apply header_payload_length. cbn [bind].
  destruct (Z.le_gt_cases (width * height * 3) Buf.kMaxLength) as [Hp|Hp].
  2:{ right. unfold pixelData. rewrite alloc_throws by lia. reflexivity. }
  rewrite pixelData_spec by nia. cbn [bind].
  set (px := [JS.to_uint8 (r (hexToRgb color)); JS.to_uint8 (g (hexToRgb color));
              JS.to_uint8 (b (hexToRgb color))]).
  set (pixel := concat (replicate (Z.to_nat (width * height)) px)).
  assert (Hpl : Buf.len pixel = width * height * 3).
  { unfold Buf.len, pixel. rewrite concat_replicate_length. simpl. nia. }
  destruct (Z.le_gt_cases (height + width * height * 3) Buf.kMaxLength) as [Hi|Hi].
  2:{ right. unfold imageData. rewrite alloc_throws by lia. reflexivity. }
  pose proof (imageData_spec width height (hexToRgb color) Hw0 Hh0 Hi) as Himg.
  rewrite pixelData_spec in Himg by nia. cbn [bind] in Himg.
  fold px in Himg. fold pixel in Himg. rewrite Himg. cbn [bind].
  rewrite deflateData_spec by (apply scanlines_bytes; apply to_uint8_byte).
  destruct (0 <=? adler32 _); cbn [bind]; [|now right].
  destruct (idat_cases (stream (split_blocks (scanlines (Z.to_nat width) (Z.to_nat height)
              (JS.to_uint8 (r (hexToRgb color))) (JS.to_uint8 (g (hexToRgb color)))
              (JS.to_uint8 (b (hexToRgb color)))))
              (scanlines (Z.to_nat width) (Z.to_nat height)
              (JS.to_uint8 (r (hexToRgb color))) (JS.to_uint8 (g (hexToRgb color)))
              (JS.to_uint8 (b (hexToRgb color)))))) as [-> | ->]; cbn [bind].
  - left. rewrite iend_spec. cbn [bind]. eauto.
  - now right.
Qed.

Lemma generatePNG_throws_only_RangeError_witness :
  generatePNG (-1) 1 "#ff0000" = Throw RangeError.
Proof.
  apply (proj2 (generatePNG_throws_only_RangeError (-1) 1 "#ff0000")). lia.
Defined.

(** ** What the checksums detect *)

Section CrcDetects.

Lemma lxor_word32 x y : word32 x -> word32 y -> word32 (Z.lxor x y).
Proof.
  intros Hx Hy. unfold word32.
  rewrite <- (to_uint32_small x), <- (to_uint32_small y) by assumption.
  rewrite <- to_uint32_lxor. apply to_uint32_range.
Qed.

Lemma shiftr_word32 x : word32 x -> word32 (Z.shiftr x 1).
Proof.
  unfold word32. intros Hx. rewrite Z.shiftr_div_pow2 by lia.
  split; [apply Z.div_pos; lia|apply Z.div_lt_upper_bound; lia].
Qed.

Lemma crc_shift_word32 x : word32 x -> word32 (crc_shift x).
Proof.
  intros Hx. unfold crc_shift. destruct (Z.testbit x 0).
  - apply lxor_word32; [now apply shiftr_word32|unfold word32, crc_poly; lia].
  - now apply shiftr_word32.
Qed.

Lemma lxor_cancel_r x y p : Z.lxor x p = Z.lxor y p -> x = y.
Proof.
  intros H. rewrite <- (Z.lxor_0_r x), <- (Z.lxor_0_r y), <- (Z.lxor_nilpotent p).
  now rewrite <- !Z.lxor_assoc, H.
Qed.

Lemma lxor_cancel_l s x y : Z.lxor s x = Z.lxor s y -> x = y.
Proof. rewrite !(Z.lxor_comm s). apply lxor_cancel_r. Qed.

(** The bit that a step shifts out is the top bit of its result. *)
Lemma crc_shift_top x : word32 x -> Z.testbit (crc_shift x) 31 = Z.testbit x 0.
Proof.
  intros Hx. unfold crc_shift.
  assert (Hs : Z.testbit (Z.shiftr x 1) 31 = false).
  { rewrite Z.shiftr_spec by lia. unfold word32 in Hx.
    destruct (Z.eq_dec x 0) as [->|Hne]; [apply Z.bits_0|].
    apply Z.bits_above_log2; [lia|]. apply Z.log2_lt_pow2; lia. }
  destruct (Z.testbit x 0).
  - rewrite Z.lxor_spec, Hs. reflexivity.
  - exact Hs.
Qed.

Lemma crc_shift_inj x y :
  word32 x -> word32 y -> crc_shift x = crc_shift y -> x = y.
Proof.
  intros Hx Hy H.
  assert (Hb : Z.testbit x 0 = Z.testbit y 0).
  { rewrite <- (crc_shift_top x Hx), <- (crc_shift_top y Hy). now rewrite H. }
  assert (Hs : Z.shiftr x 1 = Z.shiftr y 1).
  { unfold crc_shift in H. rewrite <- Hb in H.
    destruct (Z.testbit x 0); [now apply lxor_cancel_r in H|exact H]. }
  apply Z.bits_inj'. intros n Hn.
  destruct (Z.eq_dec n 0) as [->|Hne]; [exact Hb|].
  replace n with (n - 1 + 1) by lia.
  rewrite <- !Z.shiftr_spec by lia. now rewrite Hs.
Qed.

Lemma crc_iter_word32 k x : word32 x -> word32 (Nat.iter k crc_shift x).
Proof.
  intros Hx. induction k as [|k IH]; [exact Hx|].
  rewrite Nat.iter_succ. now apply crc_shift_word32.
Qed.

Lemma crc_iter_inj k x y :
  word32 x -> word32 y -> Nat.iter k crc_shift x = Nat.iter k crc_shift y -> x = y.
Proof.
  intros Hx Hy. induction k as [|k IH]; [auto|].
  rewrite !Nat.iter_succ. intros H. apply IH.
  apply crc_shift_inj; auto using crc_iter_word32.
Qed.

Lemma byte_word32 d : is_byte d -> word32 d.
Proof. unfold is_byte, word32. lia. Qed.

Lemma crc_update_word32 s d : word32 s -> is_byte d -> word32 (crc_update s d).
Proof.
  intros Hs Hd. unfold crc_update.
  apply crc_iter_word32, lxor_word32; auto using byte_word32.
Qed.

Lemma crc_fold_word32 data s :
  Forall is_byte data -> word32 s -> word32 (fold_left crc_update data s).
Proof.
  intros H. revert s. induction H as [|d data Hd _ IH]; intros s Hs; [exact Hs|].
  simpl. apply IH. now apply crc_update_word32.
Qed.

(** The accumulator after a sequence of bytes determines the accumulator
    before it. *)
Lemma crc_fold_inj data s t :
  Forall is_byte data -> word32 s -> word32 t ->
  fold_left crc_update data s = fold_left crc_update data t -> s = t.
Proof.
  intros H. revert s t. induction H as [|d data Hd _ IH]; intros s t Hs Ht; [auto|].
  simpl. intros E. apply IH in E; auto using crc_update_word32.
  unfold crc_update in E.
  apply crc_iter_inj in E; auto using lxor_word32, byte_word32.
  now apply lxor_cancel_r in E.
Qed.

End CrcDetects.

(** X11: crc32 tells apart any two sequences of bytes that differ in one
    byte only: a chunk in which a single byte was altered never has the
    checksum of the original. *)
Theorem crc32_detects_byte_change (pre post : list Z) (d d' : Z) :
  Forall is_byte pre -> Forall is_byte post -> is_byte d -> is_byte d' ->
  d <> d' ->
  crc32 (pre ++ d :: post) <> crc32 (pre ++ d' :: post).
Proof.
  intros Hpre Hpost Hd Hd' Hne.
  rewrite !crc32_matches_reference by (apply Forall_app; split; auto).
  unfold crc32_reference. rewrite !fold_left_app. simpl.
  set (s := fold_left crc_update pre 0xFFFFFFFF).
  assert (Hs : word32 s) by (apply crc_fold_word32; [exact Hpre|unfold word32; lia]).
  intros E. apply lxor_cancel_r in E.
  apply crc_fold_inj in E; auto using crc_update_word32.
  unfold crc_update in E.
  apply crc_iter_inj in E; auto using lxor_word32, byte_word32.
  apply lxor_cancel_l in E. contradiction.
Qed.

Lemma crc32_detects_byte_change_witness :
  crc32 ([73; 72] ++ 68 :: [82]) <> crc32 ([73; 72] ++ 69 :: [82]).
Proof.
  apply crc32_detects_byte_change;
    try (repeat (constructor 2; [unfold is_byte; lia|]); constructor 1);
    unfold is_byte; lia.
Defined.

Section AdlerDetects.

Lemma adler32_a_sum data a0 b0 :
  fst (fold_left (fun ab d =>
                    let a := (fst ab + d) mod 65521 in
                    (a, (snd ab + a) mod 65521)) data (a0, b0))
  = if data is [] then a0 else (a0 + fold_right Z.add 0 data) mod 65521.
Proof.
  revert a0 b0. induction data as [|d data IH]; intros a0 b0; [reflexivity|].
  simpl. rewrite IH. destruct data as [|d1 data].
  - simpl. f_equal. lia.
  - rewrite Zplus_mod_idemp_l. f_equal. simpl. lia.
Qed.

Lemma to_uint32_adler32 data :
  Forall is_byte data -> JS.to_uint32 (adler32 data) = adler32_spec data.
Proof.
  intros H. rewrite adler32_signed, to_uint32_to_int32 by exact H.
  apply to_uint32_small, adler32_spec_range, H.
Qed.

Lemma adler32_spec_inj_a data1 data2 :
  Forall is_byte data1 -> Forall is_byte data2 ->
  adler32 data1 = adler32 data2 ->
  fst (adler32_sums data1) = fst (adler32_sums data2).
Proof.
  intros H1 H2 E.
  assert (E' : adler32_spec data1 = adler32_spec data2).
  { rewrite <- (to_uint32_adler32 data1 H1), <- (to_uint32_adler32 data2 H2).
    now rewrite E. }
  rewrite !adler32_spec_sum in E' by assumption.
  change (2 ^ 16) with 65536 in E'.
  destruct (adler32_sums_range data1 H1). destruct (adler32_sums_range data2 H2). lia.
Qed.

End AdlerDetects.

(** X12: adler32 tells apart any two sequences of bytes that differ in one
    byte only. *)
Theorem adler32_detects_byte_change (pre post : list Z) (d d' : Z) :
  Forall is_byte pre -> Forall is_byte post -> is_byte d -> is_byte d' ->
  d <> d' ->
  adler32 (pre ++ d :: post) <> adler32 (pre ++ d' :: post).
Proof.
  intros Hpre Hpost Hd Hd' Hne E.
  apply adler32_spec_inj_a in E; try (apply Forall_app; split; auto).
  unfold adler32_sums in E. rewrite !adler32_a_sum in E.
  destruct (pre ++ d :: post) eqn:E1; [destruct pre; discriminate|].
  destruct (pre ++ d' :: post) eqn:E2; [destruct pre; discriminate|].
  rewrite <- E1, <- E2 in E. clear E1 E2.
  rewrite !fold_right_app in E. simpl in E.
  assert (G : forall (xs : list Z) x, fold_right Z.add x xs = fold_right Z.add 0 xs + x).
  { intros xs. induction xs as [|y xs IH]; intros x; simpl; [lia|]. rewrite IH. lia. }
  rewrite (G pre (d + _)), (G pre (d' + _)) in E.
  set (u := fold_right Z.add 0 pre) in E. set (v := fold_right Z.add 0 post) in E.
  unfold is_byte in Hd, Hd'.
  pose proof (Z.div_mod (1 + (u + (d + v))) 65521).
  pose proof (Z.div_mod (1 + (u + (d' + v))) 65521). lia.
Qed.

Lemma adler32_detects_byte_change_witness :
  adler32 ([0; 255] ++ 0 :: [0]) <> adler32 ([0; 255] ++ 1 :: [0]).
Proof.
  apply adler32_detects_byte_change;
    try (repeat (constructor 2; [unfold is_byte; lia|]); constructor 1);
    unfold is_byte; lia.
Defined.

(** ** The pixels in the scanline buffer *)

Section Pixels.

Lemma lookup_concat_replicate {A} (l : list A) n j i :
  (j < n)%nat -> (i < length l)%nat ->
  concat (replicate n l) !! (j * length l + i)%nat = l !! i.
Proof.
  revert j. induction n as [|n IH]; intros j Hj Hi; [lia|].
  simpl. destruct j as [|j].
  - simpl. now apply lookup_app_l.
  - rewrite lookup_app_r by lia.
    replace (Datatypes.S j * length l + i - length l)%nat with (j * length l + i)%nat by lia.
    apply IH; lia.
Qed.

Lemma scanlines_lookup w h cr cg cb y i :
  (y < h)%nat -> (i < 1 + w * 3)%nat ->
  scanlines w h cr cg cb !! (y * (1 + w * 3) + i)%nat = scanline w cr cg cb !! i.
Proof.
  intros Hy Hi. unfold scanlines.
  rewrite <- (scanline_length w cr cg cb) in *. now apply lookup_concat_replicate.
Qed.

Lemma scanline_lookup w cr cg cb x k :
  (x < w)%nat -> (k < 3)%nat ->
  scanline w cr cg cb !! (1 + (x * 3 + k))%nat = [cr; cg; cb] !! k.
Proof.
  intros Hx Hk. unfold scanline. simpl.
  exact (lookup_concat_replicate [cr; cg; cb] w x k Hx Hk).
Qed.

End Pixels.

(** X13: in the buffer that generatePNG hands to deflateData, for valid
    width and height, row y starts at index y * (1 + 3 * width) with the
    filter byte 0, and the three bytes of pixel x of that row, at the
    indices 1 + 3 * x, 2 + 3 * x and 3 + 3 * x behind it, are the red, green
    and blue bytes of the colour: every pixel has the colour asked for. *)
Theorem every_pixel_has_the_colour (width height cr cg cb : Z) (x y : nat) :
  valid_dimension width -> valid_dimension height ->
  is_byte cr -> is_byte cg -> is_byte cb ->
  (x < Z.to_nat width)%nat -> (y < Z.to_nat height)%nat ->
  exists imageData',
    (p <- pixelData width height {| r := Some cr; g := Some cg; b := Some cb |} ;;
     imageData width height p) = Ok imageData' /\
    let row := (y * (1 + Z.to_nat width * 3))%nat in
    imageData' !! row = Some 0 /\
    imageData' !! (row + 1 + 3 * x)%nat = Some cr /\
    imageData' !! (row + 2 + 3 * x)%nat = Some cg /\
    imageData' !! (row + 3 + 3 * x)%nat = Some cb.
Proof.
  intros Hw Hh Hr Hg Hb Hx Hy. unfold valid_dimension in Hw, Hh.
  eexists. split.
  - rewrite imageData_spec by (unfold Buf.kMaxLength; nia).
    cbn [r g b JS.to_uint8]. unfold is_byte in Hr, Hg, Hb.
    rewrite !Z.mod_small by lia. reflexivity.
  - intros row. subst row.
    set (w := Z.to_nat width) in *. set (h := Z.to_nat height) in *.
    split; [|split; [|split]].
    + rewrite <- (Nat.add_0_r (y * (1 + w * 3))).
      rewrite scanlines_lookup by lia. reflexivity.
    + replace (y * (1 + w * 3) + 1 + 3 * x)%nat
        with (y * (1 + w * 3) + (1 + (x * 3 + 0)))%nat by lia.
      rewrite scanlines_lookup, scanline_lookup by lia. reflexivity.
    + replace (y * (1 + w * 3) + 2 + 3 * x)%nat
        with (y * (1 + w * 3) + (1 + (x * 3 + 1)))%nat by lia.
      rewrite scanlines_lookup, scanline_lookup by lia. reflexivity.
    + replace (y * (1 + w * 3) + 3 + 3 * x)%nat
        with (y * (1 + w * 3) + (1 + (x * 3 + 2)))%nat by lia.
      rewrite scanlines_lookup, scanline_lookup by lia. reflexivity.
Qed.

Lemma every_pixel_has_the_colour_witness :
  exists imageData',
    (p <- pixelData 2 2 {| r := Some 255; g := Some 0; b := Some 0 |} ;;
     imageData 2 2 p) = Ok imageData' /\
    imageData' !! (1 * (1 + Z.to_nat 2 * 3) + 1 + 3 * 1)%nat = Some 255.
Proof.
  assert (H : valid_dimension 2) by (unfold valid_dimension; lia).
  assert (H255 : is_byte 255) by (unfold is_byte; lia).
  assert (H0 : is_byte 0) by (unfold is_byte; lia).
  destruct (every_pixel_has_the_colour 2 2 255 0 0 1 1 H H H255 H0 H0)
    as (img & E & _ & Hred & _); [lia|lia|].
  exists img. split; [exact E|exact Hred].
Defined.

(** ** Reading the stream back *)

Section RoundTrip.

Lemma le16_decode v :
  0 <= v <= 0xFFFF -> v mod 256 + 256 * (v / 2 ^ 8 mod 256) = v.
Proof.
  intros Hv. change (2 ^ 8) with 256.
  rewrite (Z.mod_small (v / 256)).
  - pose proof (Z.div_mod v 256). lia.
  - split; [apply Z.div_pos; lia|apply Z.div_lt_upper_bound; lia].
Qed.

Lemma read_stored_block final chunk tail fuel :
  Buf.len chunk <= 0xFFFF ->
  read_stored_blocks (Datatypes.S fuel) (stored_block final chunk ++ tail)
  = if final then Some (chunk, tail)
    else match read_stored_blocks fuel tail with
         | Some (data, tail') => Some (chunk ++ data, tail')
         | None => None
         end.
Proof.
  intros Hlen. pose proof (len_nonneg chunk) as H0.
  unfold stored_block, le16. cbn [app read_stored_blocks].
  rewrite !le16_decode by lia.
  rewrite Z.eqb_refl, len_app.
  pose proof (len_nonneg tail).
  destruct (Z.leb_spec (Buf.len chunk) (Buf.len chunk + Buf.len tail)); [|lia].
  assert (Ht : Z.to_nat (Buf.len chunk) = length chunk) by (unfold Buf.len; lia).
  rewrite Ht, take_app_length, drop_app_length.
  destruct final; reflexivity.
Qed.

Lemma read_stored_blocks_spec chunks tail fuel :
  chunks <> [] ->
  Forall (fun chunk => Buf.len chunk <= 0xFFFF) chunks ->
  (length chunks <= fuel)%nat ->
  read_stored_blocks fuel (stored_blocks chunks ++ tail) = Some (concat chunks, tail).
Proof.
  intros Hne H. revert fuel. induction H as [|c cs Hc Hcs IH]; [contradiction|].
  intros fuel Hfuel. destruct fuel as [|fuel]; [simpl in Hfuel; lia|].
  destruct cs as [|c' cs].
  - cbn [stored_blocks concat]. rewrite read_stored_block by exact Hc.
    now rewrite app_nil_r.
  - change (stored_blocks (c :: c' :: cs))
      with (stored_block false c ++ stored_blocks (c' :: cs)).
    rewrite <- app_assoc, read_stored_block by exact Hc.
    rewrite IH; [reflexivity|discriminate|simpl in *; lia].
Qed.

Lemma split_blocks_nonempty data : data <> [] -> split_blocks data <> [].
Proof.
  intros Hne E. apply (f_equal (@length _)) in E.
  rewrite split_blocks_length in E. simpl in E.
  pose proof (block_count_bounds (length data)).
  destruct data; [contradiction|]. simpl in *. lia.
Qed.

(** The reader recovers the input from its stream. *)
Lemma inflate_stream data :
  Forall is_byte data -> data <> [] ->
  inflate_stored (stream (split_blocks data) data) = Some data.
Proof.
  intros Hb Hne. unfold stream, inflate_stored. cbn [app].
  rewrite read_stored_blocks_spec.
  - rewrite concat_split_blocks. unfold be32 at 1.
    change [?a; ?b; ?c; ?d] with (be32 (adler32_spec data)).
    rewrite decode_be32_be32 by now apply adler32_spec_range.
    now rewrite Z.eqb_refl.
  - now apply split_blocks_nonempty.
  - apply split_blocks_bound.
  - rewrite length_app, stored_blocks_length. lia.
Qed.

End RoundTrip.

(** X14: round trip.  From what deflateData returns on a sequence of bytes
    that is not empty, a reader of stored-block streams recovers the
    sequence; what deflateData returns on the empty sequence has no final
    block and the reader refuses it. *)
Theorem deflateData_round_trip (data s : list Z) :
  Forall is_byte data -> deflateData data = Ok s ->
  inflate_stored s = if data is [] then None else Some data.
Proof.
  intros Hb. rewrite deflateData_spec by exact Hb.
  destruct (0 <=? adler32 data); [|discriminate].
  intros E. apply Ok_inj in E. subst s.
  destruct data as [|d data]; [reflexivity|].
  now apply inflate_stream.
Qed.

Lemma deflateData_round_trip_witness :
  inflate_stored ([0x78; 0x01] ++ stored_blocks (split_blocks [1; 2; 3])
                  ++ be32 (adler32_spec [1; 2; 3]))
  = Some [1; 2; 3].
Proof.
  apply (deflateData_round_trip [1; 2; 3]).
  - repeat (constructor 2; [unfold is_byte; lia|]). constructor 1.
  - vm_compute. reflexivity.
Defined.

(** X15: deflateData loses nothing: two sequences of bytes on which it
    returns the same stream are the same sequence. *)
Theorem deflateData_injective (data1 data2 s : list Z) :
  Forall is_byte data1 -> Forall is_byte data2 ->
  deflateData data1 = Ok s -> deflateData data2 = Ok s -> data1 = data2.
Proof.
  intros H1 H2. rewrite !deflateData_spec by assumption.
  destruct (0 <=? adler32 data1); [|discriminate].
  destruct (0 <=? adler32 data2); [|discriminate].
  intros E1 E2. apply Ok_inj in E1, E2.
  assert (Hlen : Buf.len (stream (split_blocks data1) data1)
                 = Buf.len (stream (split_blocks data2) data2)) by congruence.
  rewrite !stream_length in Hlen.
  pose proof (block_count_bounds (length data1)).
  pose proof (block_count_bounds (length data2)).
  destruct data1 as [|d1 data1], data2 as [|d2 data2]; try reflexivity;
    try (exfalso; unfold Buf.len in Hlen; simpl in *; lia).
  assert (E : Some (d1 :: data1) = Some (d2 :: data2)).
  { rewrite <- (inflate_stream (d1 :: data1)), <- (inflate_stream (d2 :: data2))
      by (assumption || discriminate).
    congruence. }
  congruence.
Qed.

Lemma deflateData_injective_witness :
  Forall is_byte [1; 2; 3] /\ [1; 2; 3] = [1; 2; 3].
Proof.
  assert (H : Forall is_byte [1; 2; 3])
    by (repeat (constructor 2; [unfold is_byte; lia|]); constructor 1).
  assert (E : deflateData [1; 2; 3]
              = Ok [120; 1; 1; 3; 0; 252; 255; 1; 2; 3; 0; 13; 0; 7])
    by (vm_compute; reflexivity).
  split; [exact H|exact (deflateData_injective [1; 2; 3] [1; 2; 3] _ H H E E)].
Defined.

(** ** The file determines the image *)

Section FileDetermines.

Lemma be32_inj v v' :
  0 <= v < 2 ^ 32 -> 0 <= v' < 2 ^ 32 -> be32 v = be32 v' -> v = v'.
Proof.
  intros Hv Hv' E. rewrite <- (decode_be32_be32 v Hv), <- (decode_be32_be32 v' Hv').
  now rewrite E.
Qed.

Lemma header_payload_inj w h w' h' :
  0 <= w < 2 ^ 32 -> 0 <= h < 2 ^ 32 -> 0 <= w' < 2 ^ 32 -> 0 <= h' < 2 ^ 32 ->
  header_payload w h = header_payload w' h' -> w = w' /\ h = h'.
Proof.
  intros Hw Hh Hw' Hh' E. unfold header_payload in E.
  apply app_inj_1 in E as [Ew E]; [|reflexivity].
  apply app_inj_1 in E as [Eh _]; [|reflexivity].
  split; eapply be32_inj; eauto.
Qed.

Lemma make_chunk_inj tag payload payload' :
  Buf.len payload = Buf.len payload' ->
  make_chunk tag payload = make_chunk tag payload' -> payload = payload'.
Proof.
  intros Hlen E. unfold make_chunk in E. rewrite Hlen in E.
  apply app_inv_head in E. apply app_inv_head in E.
  apply app_inj_1 in E as [E _]; [exact E|].
  unfold Buf.len in Hlen. lia.
Qed.

Lemma scanlines_first_pixel w h cr cg cb :
  (0 < w)%nat -> (0 < h)%nat ->
  take 4 (scanlines w h cr cg cb) = [0; cr; cg; cb].
Proof.
  intros Hw Hh. destruct h as [|h]; [lia|]. destruct w as [|w]; [lia|].
  reflexivity.
Qed.

Lemma scanlines_nonempty w h cr cg cb :
  (0 < w)%nat -> (0 < h)%nat -> scanlines w h cr cg cb <> [].
Proof.
  intros Hw Hh E. pose proof (scanlines_first_pixel w h cr cg cb Hw Hh) as H.
  rewrite E in H. discriminate.
Qed.

End FileDetermines.

(** X16: the file determines the image.  When generatePNG returns the same
    file for two requests with valid widths, heights and colours, the
    widths are equal, the heights are equal and the colours have the same red,
    green and blue bytes. *)
Theorem generatePNG_injective
    (width height width' height' : Z) (color color' : string) (out : list Z) :
  valid_dimension width -> valid_dimension height -> isValidColor color = true ->
  valid_dimension width' -> valid_dimension height' -> isValidColor color' = true ->
  generatePNG width height color = Ok out ->
  generatePNG width' height' color' = Ok out ->
  width = width' /\ height = height' /\ hexToRgb color = hexToRgb color'.
Proof.
  intros Hw Hh Hc Hw' Hh' Hc'. unfold valid_dimension in *.
  destruct (hexToRgb_valid color Hc) as (cr & cg & cb & Hr & Hg & Hb & Hrgb).
  destruct (hexToRgb_valid color' Hc') as (cr' & cg' & cb' & Hr' & Hg' & Hb' & Hrgb').
  rewrite !generatePNG_spec by nia.
  rewrite Hrgb, Hrgb'. cbn [r g b JS.to_uint8].
  unfold is_byte in *. rewrite !Z.mod_small by lia.
  set (S1 := scanlines (Z.to_nat width) (Z.to_nat height) cr cg cb).
  set (S2 := scanlines (Z.to_nat width') (Z.to_nat height') cr' cg' cb').
  destruct (0 <=? adler32 S1); [|discriminate].
  destruct (0 <=? adler32 S2); [|discriminate].
  intros E1 E2. apply Ok_inj in E1, E2. rewrite <- E2 in E1. clear E2.
  apply app_inv_head in E1.
  apply app_inj_1 in E1 as [EA E1];
    [|now rewrite <- !Nat2Z.inj_iff; fold (Buf.len (make_chunk "IHDR" (header_payload width height)));
      fold (Buf.len (make_chunk "IHDR" (header_payload width' height')));
      rewrite !make_chunk_length, !header_payload_length].
  apply app_inv_tail in E1.
  apply make_chunk_inj in EA; [|now rewrite !header_payload_length].
  apply header_payload_inj in EA as [-> ->]; try lia.
  split; [reflexivity|]. split; [reflexivity|].
  assert (HS1 : Forall is_byte S1) by (apply scanlines_bytes; unfold is_byte; lia).
  assert (HS2 : Forall is_byte S2) by (apply scanlines_bytes; unfold is_byte; lia).
  assert (Hlen : length S1 = length S2)
    by (unfold S1, S2; now rewrite !scanlines_length).
  apply make_chunk_inj in E1.
  2:{ rewrite !stream_length. unfold Buf.len. now rewrite Hlen. }
  assert (ES : Some S1 = Some S2).
  { rewrite <- (inflate_stream S1), <- (inflate_stream S2);
      try assumption; try (apply scanlines_nonempty; lia).
    now rewrite E1. }
  assert (ES' : take 4 S1 = take 4 S2) by congruence.
  unfold S1, S2 in ES'. rewrite !scanlines_first_pixel in ES' by lia.
  congruence.
Qed.

Lemma generatePNG_injective_witness :
  let out := signature ++ make_chunk "IHDR" (header_payload 2 2)
             ++ make_chunk "IDAT"
                  (stream (split_blocks (scanlines 2 2 255 0 0)) (scanlines 2 2 255 0 0))
             ++ make_chunk "IEND" [] in
  generatePNG 2 2 "#f00" = Ok out /\ generatePNG 2 2 "#FF0000" = Ok out /\
  hexToRgb "#f00" = hexToRgb "#FF0000".
Proof.
  intros out.
  assert (H : valid_dimension 2) by (unfold valid_dimension; lia).
  assert (E1 : generatePNG 2 2 "#f00" = Ok out) by (vm_compute; reflexivity).
  assert (E2 : generatePNG 2 2 "#FF0000" = Ok out) by (vm_compute; reflexivity).
  split; [exact E1|]. split; [exact E2|].
  exact (proj2 (proj2 (generatePNG_injective 2 2 2 2 "#f00" "#FF0000" out
                         H H eq_refl H H eq_refl E1 E2))).
Defined.

(** ** Black images *)

Section Black.

Lemma adler32_sums_zeros n b0 :
  0 <= b0 < 65521 ->
  fold_left (fun ab d =>
               let a := (fst ab + d) mod 65521 in
               (a, (snd ab + a) mod 65521)) (replicate n 0) (1, b0)
  = (1, (b0 + Z.of_nat n) mod 65521).
Proof.
  revert b0. induction n as [|n IH]; intros b0 Hb.
  - simpl. f_equal. rewrite Z.add_0_r. symmetry. now apply Z.mod_small.
  - cbn [replicate fold_left fst snd]. change ((1 + 0) mod 65521) with 1.
    rewrite IH by (apply Z.mod_pos_bound; lia).
    f_equal. rewrite Zplus_mod_idemp_l. f_equal. lia.
Qed.

Lemma scanlines_black w h :
  scanlines w h 0 0 0 = replicate (h * (1 + w * 3)) 0.
Proof.
  assert (R : forall n, concat (replicate n [0; 0; 0]) = replicate (n * 3) 0).
  { induction n as [|n IH]; [reflexivity|]. simpl. now rewrite IH. }
  unfold scanlines, scanline. rewrite R.
  induction h as [|h IH]; [reflexivity|].
  cbn [replicate concat]. rewrite IH.
  change (0 :: replicate (w * 3) 0) with (replicate (1 + w * 3) 0).
  rewrite <- replicate_add. f_equal.
Qed.

End Black.

(** X17: for valid width and height, generatePNG returns a black image
    exactly when the size n = height * (1 + 3 * width) of its scanline
    buffer leaves a remainder below 2^15 on division by 65521, and throws a
    RangeError otherwise (all bytes are 0, so the Adler-32 sums are a = 1
    and b = n mod 65521). *)
Theorem generatePNG_black (width height : Z) :
  valid_dimension width -> valid_dimension height ->
  let n := height * (1 + 3 * width) in
  let buffer := scanlines (Z.to_nat width) (Z.to_nat height) 0 0 0 in
  adler32_sums buffer = (1, n mod 65521) /\
  generatePNG width height "#000000"
  = if n mod 65521 <? 2 ^ 15
    then Ok (signature ++ make_chunk "IHDR" (header_payload width height)
             ++ make_chunk "IDAT" (stream (split_blocks buffer) buffer)
             ++ make_chunk "IEND" [])
    else Throw RangeError.
Proof.
  intros Hw Hh n buffer. unfold valid_dimension in Hw, Hh.
  assert (Hs : adler32_sums buffer = (1, n mod 65521)).
  { unfold buffer, adler32_sums. rewrite scanlines_black, adler32_sums_zeros by lia.
    do 2 f_equal. unfold n. nia. }
  split; [exact Hs|].
  rewrite generatePNG_spec by nia.
  change (hexToRgb "#000000") with {| r := Some 0; g := Some 0; b := Some 0 |}.
  cbn [r g b JS.to_uint8]. change (0 mod 256) with 0. fold buffer.
  rewrite adler32_sign by (apply scanlines_bytes; unfold is_byte; lia).
  now rewrite Hs.
Qed.

Lemma generatePNG_black_witness :
  valid_dimension 3 /\
  adler32_sums (scanlines (Z.to_nat 3) (Z.to_nat 3) 0 0 0)
  = (1, (3 * (1 + 3 * 3)) mod 65521).
Proof.
  assert (H : valid_dimension 3) by (unfold valid_dimension; lia).
  split; [exact H|]. exact (proj1 (generatePNG_black 3 3 H H)).
Defined.

(** ** Height 0 *)

(** X18: generatePNG does not refuse the height 0: for every width that fits
    32 bits and every colour string it returns a file whose header declares
    the height 0 and whose data chunk holds the stream of the empty buffer,
    the header and the trailer with no stored block between them. *)
Theorem generatePNG_height_0 (width : Z) (color : string) :
  0 <= width <= 0xFFFFFFFF ->
  generatePNG width 0 color
  = Ok (signature ++ make_chunk "IHDR" (header_payload width 0)
        ++ make_chunk "IDAT" ([0x78; 0x01] ++ [] ++ be32 1)
        ++ make_chunk "IEND" []).
Proof.
  intros Hw. rewrite generatePNG_spec by lia.
  change (Z.to_nat 0) with 0%nat. unfold scanlines. cbn [replicate concat].
  reflexivity.
Qed.

Lemma generatePNG_height_0_witness :
  generatePNG 7 0 "#123456"
  = Ok (signature ++ make_chunk "IHDR" (header_payload 7 0)
        ++ make_chunk "IDAT" ([0x78; 0x01] ++ [] ++ be32 1)
        ++ make_chunk "IEND" []).
Proof.
  apply generatePNG_height_0. lia.
Defined.
